(** * wolf3d-ts: the BMP -> PNG asset converter (scripts/convert-bmp.py)

    A shallow embedding of the converter script and the properties of it
    that its specification states.  The script is a linear batch job over
    two static tables; its only algorithm is the colorkey scan inside
    [convert_enemy].

    Conventions of the embedding:
    - Python [str] values are [string]s (the tables and every derived name
      are ASCII); an f-string is a concatenation.
    - An RGBA pixel is the 4-tuple of integers Pillow hands out; the pixel
      store behind [img.load()] is a row-major list indexed by [y * w + x],
      read and written through bounds-checked accessors that raise
      [IndexError] like Pillow's.
    - Effects (the file system, standard output, exceptions) are threaded
      through a state-and-exception monad over a [world]. *)

From Stdlib Require Import ZArith Ascii String DecimalString.
From stdpp Require Import base option list gmap strings.

Local Open Scope nat_scope.

(** ** Exceptions and results *)

Inductive exn : Type :=
  | IndexError
  | FileNotFoundError
  | FileExistsError
  | IsADirectoryError
  | NotADirectoryError
  | UnidentifiedImageError.

Inductive result (A : Type) : Type :=
  | Ok (a : A)
  | Raise (e : exn).
Arguments Ok {A} a.
Arguments Raise {A} e.

#[global] Instance result_ret : MRet result := λ A a, Ok a.
#[global] Instance result_bind : MBind result := λ A B f m,
  match m with
  | Ok a => f a
  | Raise e => Raise e
  end.

#[global] Instance result_fmap : FMap result := λ A B f m,
  match m with
  | Ok a => Ok (f a)
  | Raise e => Raise e
  end.

(** [for x in xs: s = body(s, x)], stopping at the first exception. *)
Fixpoint for_each {A S : Type} (xs : list A) (body : S → A → result S)
    (s : S) : result S :=
  match xs with
  | [] => Ok s
  | x :: rest =>
      match body s x with
      | Ok s' => for_each rest body s'
      | Raise e => Raise e
      end
  end.

(** ** Images *)

Definition rgb : Type := (Z * Z * Z)%type.
Definition pixel : Type := (Z * Z * Z * Z)%type.

(** A decoded image in mode RGBA: [img.size] and the pixel store that
    [img.load()] gives access to. *)
Record image : Type := Image {
  size : nat * nat;
  data : list pixel
}.

Definition width (img : image) : nat := fst (size img).
Definition height (img : image) : nat := snd (size img).

(** What every image that comes out of a decoder satisfies. *)
Definition well_formed (img : image) : Prop :=
  length (data img) = height img * width img.

(** [pixels[x, y]] *)
Definition getpixel (img : image) (x y : nat) : result pixel :=
  let '(w, h) := size img in
  if (x <? w) && (y <? h) then
    match data img !! (y * w + x) with
    | Some p => Ok p
    | None => Raise IndexError
    end
  else Raise IndexError.

(** [pixels[x, y] = p] *)
Definition putpixel (img : image) (x y : nat) (p : pixel) : result image :=
  let '(w, h) := size img in
  if (x <? w) && (y <? h) then
    if y * w + x <? length (data img) then
      Ok {| size := size img; data := <[y * w + x := p]> (data img) |}
    else Raise IndexError
  else Raise IndexError.

(** Equality of two [(r, g, b)] tuples. *)
Definition rgb_eqb (c1 c2 : rgb) : bool :=
  let '(r1, g1, b1) := c1 in
  let '(r2, g2, b2) := c2 in
  ((r1 =? r2) && (g1 =? g2) && (b1 =? b2))%Z.
Arguments rgb_eqb : simpl never.

(** [(bg[0], bg[1], bg[2])] *)
Definition rgb_of (p : pixel) : rgb :=
  let '(r, g, b, _) := p in (r, g, b).

Definition alpha_of (p : pixel) : Z :=
  let '(_, _, _, a) := p in a.

(** The body of the inner loop of [convert_enemy] (lines 63-65). *)
Definition colorkey_step (bg : pixel) (img : image) (x y : nat)
    : result image :=
  '(r, g, b, a) ← getpixel img x y;
  if rgb_eqb (r, g, b) (rgb_of bg)
  then putpixel img x y (r, g, b, 0%Z)
  else Ok img.

(** Lines 57-65 of [convert_enemy]: the key is read at (0,0), then the
    store is scanned row by row and updated in place. *)
Definition colorkey (img : image) : result image :=
  bg ← getpixel img 0 0;
  let '(w, h) := size img in
  for_each (seq 0 h)
    (λ img y, for_each (seq 0 w) (λ img x, colorkey_step bg img x y) img)
    img.

(** The same loop body run over an arbitrary sequence of coordinates. *)
Definition colorkey_scan (bg : pixel) (order : list (nat * nat))
    (img : image) : result image :=
  for_each order (λ img '(x, y), colorkey_step bg img x y) img.

(** The coordinates in the order the nested [range] loops visit them. *)
Definition row_major (w h : nat) : list (nat * nat) :=
  y ← seq 0 h; x ← seq 0 w; [(x, y)].

(** The specification's reading of the extraction: one pure function of a
    pixel's own colour, mapped over the image. *)
Definition key_pixel (key : rgb) (p : pixel) : pixel :=
  let '(r, g, b, a) := p in
  if rgb_eqb (r, g, b) key then (r, g, b, 0%Z) else p.

Definition colorkey_map (key : rgb) (img : image) : image :=
  {| size := size img; data := key_pixel key <$> data img |}.

(** Bookkeeping for the scan proofs: the store index of a coordinate, the
    coordinates of a [w] x [h] image, and the store after a scan. *)
Definition cell (w : nat) (c : nat * nat) : nat := c.2 * w + c.1.

Definition in_bounds (w h : nat) (c : nat * nat) : Prop :=
  c.1 < w ∧ c.2 < h.

Definition alter_cells (key : rgb) (w : nat) (order : list (nat * nat))
    (d : list pixel) : list pixel :=
  foldl (λ d c, alter (key_pixel key) (cell w c) d) d order.

(** ** Strings and paths *)

(** [s.startswith("/")] and [s.endswith("/")] *)
Definition startswith_sep (s : string) : bool :=
  match s with
  | String "/" _ => true
  | _ => false
  end.

Fixpoint endswith_sep (s : string) : bool :=
  match s with
  | EmptyString => false
  | String c EmptyString => Ascii.eqb c "/"
  | String _ rest => endswith_sep rest
  end.

Definition is_empty (s : string) : bool :=
  match s with
  | EmptyString => true
  | _ => false
  end.

(** The last character of a string, if it has one. *)
Fixpoint last_ascii (s : string) : option ascii :=
  match s with
  | EmptyString => None
  | String c EmptyString => Some c
  | String _ rest => last_ascii rest
  end.

(** One iteration of the loop of [posixpath.join]. *)
Definition join_step (path b : string) : string :=
  if startswith_sep b || is_empty path then b
  else if endswith_sep path then path +:+ b
  else path +:+ "/" +:+ b.

(** [os.path.join(a, *p)] *)
Definition os_path_join (a : string) (p : list string) : string :=
  foldl join_step a p.

(** [s.rstrip("/")] *)
Fixpoint rstrip_sep (s : string) : string :=
  match s with
  | EmptyString => EmptyString
  | String c rest =>
      match rstrip_sep rest with
      | EmptyString =>
          if Ascii.eqb c "/" then EmptyString else String c EmptyString
      | stripped => String c stripped
      end
  end.

(** [p[:p.rfind("/") + 1]]: [p] up to and including its last separator,
    empty when it has none. *)
Fixpoint upto_last_sep (p : string) : string :=
  match p with
  | EmptyString => EmptyString
  | String c rest =>
      match upto_last_sep rest with
      | EmptyString =>
          if Ascii.eqb c "/" then String c EmptyString else EmptyString
      | head => String c head
      end
  end.

(** [os.path.dirname(p)] of [posixpath]: the head of [p], without its
    trailing separators unless it consists of separators only. *)
Definition os_path_dirname (p : string) : string :=
  let head := upto_last_sep p in
  if is_empty (rstrip_sep head) then head else rstrip_sep head.

(** ["/" in s] *)
Fixpoint has_sep (s : string) : bool :=
  match s with
  | EmptyString => false
  | String c rest => Ascii.eqb c "/" || has_sep rest
  end.

(** The directories above [p], nearest first: [dirname(p)],
    [dirname(dirname(p))], ... down to the root or the first component.
    Each is shorter than the one before, so the length of [p] bounds the
    number of steps. *)
Fixpoint ancestors_upto (n : nat) (p : string) : list string :=
  match n with
  | 0 => []
  | S n =>
      let head := os_path_dirname p in
      if is_empty head || String.eqb head p then []
      else head :: ancestors_upto n head
  end.

Definition ancestors (p : string) : list string :=
  ancestors_upto (String.length p) p.

(** [s.lower()] on ASCII text. *)
Definition lower_ascii (c : ascii) : ascii :=
  let n := nat_of_ascii c in
  if (65 <=? n) && (n <=? 90) then ascii_of_nat (n + 32) else c.

Fixpoint lower (s : string) : string :=
  match s with
  | EmptyString => EmptyString
  | String c rest => String (lower_ascii c) (lower rest)
  end.

(** [list(s)]: the one-character strings of [s]. *)
Fixpoint list_of_str (s : string) : list string :=
  match s with
  | EmptyString => []
  | String c rest => String c EmptyString :: list_of_str rest
  end.

(** [str(n)] for a non-negative integer, as an f-string formats it. *)
Definition str_of_nat (n : nat) : string :=
  NilZero.string_of_uint (Nat.to_uint n).

Definition newline : string := String (ascii_of_nat 10) EmptyString.

(** ** The static tables *)

Definition SRC : string := "/tmp/wolf3d-assets".

(** [WALL_MAP], in insertion order (the order [.items()] iterates in). *)
Definition WALL_MAP : list (string * string) :=
  [ ("greybrick1.bmp", "wall_0.png");
    ("bluestone1.BMP", "wall_1.png");
    ("wood1.BMP", "wall_2.png");
    ("stone1.BMP", "wall_3.png");
    ("bluestone3.BMP", "wall_4.png");
    ("wood3.BMP", "wall_5.png");
    ("greybrick5.bmp", "wall_6.png");
    ("brick1.BMP", "wall_7.png");
    ("door1.BMP", "door_0.png");
    ("elevator1.BMP", "door_1.png") ].

(** [ENEMIES]: prefix, output directory, frame letters. *)
Definition ENEMIES : list (string * string * list string) :=
  [ ("GARD", "guard", list_of_str "ABCDEFGHIJKLMN");
    ("OFFI", "officer", list_of_str "ABCDEFGHIJKLMNO");
    ("NZSS", "ss", list_of_str "ABCDEFGHIJKLMN");
    ("MTNT", "mutant", list_of_str "ABCDEFGHIJKLMNOP") ].

(** ** The world outside the script *)

(** A decoded source picture, before [.convert("RGBA")]: its size and its
    pixels, with or without an alpha channel. *)
Inductive source_pixels : Type :=
  | NoAlpha (px : list rgb)
  | HasAlpha (px : list pixel).

Record source_image : Type := SourceImage {
  src_size : nat * nat;
  src_pixels : source_pixels
}.

Inductive content : Type :=
  | Undecodable
  | Picture (s : source_image).

Inductive node : Type :=
  | Dir
  | File (c : content).

(** What a run does to its environment, in order. *)
Inductive event : Type :=
  | EPrint (line : string)
  | EMakedirs (path : string)
  | ESave (path : string).

#[global] Instance event_eq_dec : EqDecision event.
Proof. solve_decision. Defined.

Record world : Type := World {
  fs : gmap string node;
  trace : list event
}.

Inductive outcome (A : Type) : Type :=
  | Done (a : A) (w : world)
  | Abort (e : exn) (w : world).
Arguments Done {A} a w.
Arguments Abort {A} e w.

(** Computations of the script: state passing with exceptions. *)
Definition M (A : Type) : Type := world → outcome A.

#[global] Instance M_ret : MRet M := λ A a w, Done a w.
#[global] Instance M_bind : MBind M := λ A B f m w,
  match m w with
  | Done a w' => f a w'
  | Abort e w' => Abort e w'
  end.

Definition emit (e : event) (w : world) : world :=
  {| fs := fs w; trace := trace w ++ [e] |}.

Definition lift_result {A : Type} (r : result A) : M A := λ w,
  match r with
  | Ok a => Done a w
  | Raise e => Abort e w
  end.

(** The world after a skip notice for [src_path]: one more line on
    standard output, the file system untouched. *)
Definition skipped (src_path : string) (w : world) : world :=
  emit (EPrint ("  SKIP (not found): " +:+ src_path)) w.

(** [for x in xs: s = body(s, x)] in [M]. *)
Fixpoint for_eachM {A S : Type} (xs : list A) (body : S → A → M S)
    (s : S) : M S :=
  match xs with
  | [] => mret s
  | x :: rest => s' ← body s x; for_eachM rest body s'
  end.

(** *** The library calls of the script

    [print], [os.path.exists], [os.makedirs] and Pillow's [Image] are
    libraries, not code of the repository.  Paths are opaque keys of the
    file system (no symbolic links, no permissions, no other process at
    work); a failing call raises, and nothing in the script catches it. *)

(** [print(line)] *)
Definition print (line : string) : M unit := λ w,
  Done () (emit (EPrint line) w).

(** [os.path.exists(path)] *)
Definition os_path_exists (path : string) : M bool := λ w,
  Done (bool_decide (is_Some (fs w !! path))) w.

Definition is_regular (o : option node) : bool :=
  match o with
  | Some (File _) => true
  | _ => false
  end.

(** The file system with a directory at each of [ds]. *)
Definition mkdirs (ds : list string) (m : gmap string node)
    : gmap string node :=
  foldr (λ d m, <[d := Dir]> m) m ds.
Arguments mkdirs : simpl never.

(** [os.makedirs(path, exist_ok=True)]: "makes all intermediate-level
    directories needed to contain the leaf directory", and the leaf.  It
    raises [NotADirectoryError] when a regular file sits at a directory
    above [path], [FileExistsError] when one sits at [path] itself, and
    then creates nothing; directories that exist are left as they are. *)
Definition os_makedirs (path : string) : M unit := λ w,
  if existsb (λ a, is_regular (fs w !! a)) (ancestors path)
  then Abort NotADirectoryError w
  else if is_regular (fs w !! path) then Abort FileExistsError w
  else Done () (emit (EMakedirs path)
                  {| fs := mkdirs (path :: ancestors path) (fs w);
                     trace := trace w |}).

(** Modelled from the spec: Pillow's [Image.open(path)], which is not in
    the repository.  It decodes the source file; a decode failure
    propagates and ends the batch. *)
Definition Image_open (path : string) : M source_image := λ w,
  match fs w !! path with
  | Some (File (Picture s)) => Done s w
  | Some (File Undecodable) => Abort UnidentifiedImageError w
  | Some Dir => Abort IsADirectoryError w
  | None => Abort FileNotFoundError w
  end.

(** Modelled from the spec: Pillow's [.convert("RGBA")], which is not in
    the repository.  It converts the decoded picture to 4-channel RGBA,
    and "if the source has no alpha channel, synthesize[s] a fully-opaque
    alpha of 255 for every pixel"; size and colours are kept. *)
Definition convert_RGBA (s : source_image) : image :=
  {| size := src_size s;
     data := match src_pixels s with
             | NoAlpha px => (λ c, (c, 255%Z)) <$> px
             | HasAlpha px => px
             end |}.

(** Modelled from the spec: the PNG file that Pillow's encoder, which is
    not in the repository, writes for an RGBA image; decoding it gives
    the image back, alpha channel included. *)
Definition png_of (img : image) : content :=
  Picture {| src_size := size img; src_pixels := HasAlpha (data img) |}.

(** Modelled from the spec: Pillow's [img.save(path, "PNG")], which is
    not in the repository.  It encodes the image as PNG at [path]; an
    I/O error on write (here: a directory at [path]) propagates. *)
Definition Image_save (img : image) (path : string) : M unit := λ w,
  match fs w !! path with
  | Some Dir => Abort IsADirectoryError w
  | _ => Done () (emit (ESave path)
                    {| fs := <[path := File (png_of img)]> (fs w);
                       trace := trace w |})
  end.

(** ** The converter *)

(** Lines 91-92. *)
Definition rotation_of (frame : string) : string :=
  let is_walking := String.leb frame "E" in
  if is_walking then "1" else "0".

(** Lines 93-94. *)
Definition enemy_src_file (prefix frame : string) : string :=
  prefix +:+ frame +:+ rotation_of frame +:+ ".bmp".

Definition enemy_dst_file (frame : string) : string :=
  lower frame +:+ ".png".

Section converter.

(** [os.path.dirname(os.path.abspath(__file__))]: where the script is
    installed. *)
Context (script_dir : string).

Definition DST : string :=
  os_path_join script_dir [".."; "public"; "assets"].

Definition ensure_dir (path : string) : M unit := os_makedirs path.

Definition wall_src_path (src_file : string) : string :=
  os_path_join SRC ["w3d_textures_fix"; src_file].

Definition wall_dst_path (dst_file : string) : string :=
  os_path_join DST ["walls"; dst_file].

Definition convert_wall (src_file dst_file : string) : M bool :=
  let src_path := wall_src_path src_file in
  let dst_path := wall_dst_path dst_file in
  found ← os_path_exists src_path;
  if negb found then
    print ("  SKIP (not found): " +:+ src_path);;
    mret false
  else
    src ← Image_open src_path;
    let img := convert_RGBA src in
    Image_save img dst_path;;
    print ("  OK " +:+ src_file +:+ " -> " +:+ dst_file);;
    mret true.

Definition convert_enemy (src_path dst_path : string) : M bool :=
  found ← os_path_exists src_path;
  if negb found then
    print ("  SKIP (not found): " +:+ src_path);;
    mret false
  else
    src ← Image_open src_path;
    let img := convert_RGBA src in
    img ← lift_result (colorkey img);
    Image_save img dst_path;;
    mret true.

(** Lines 95-96. *)
Definition enemy_src_path (prefix frame : string) : string :=
  os_path_join SRC ["w3d_enemies_fix"; enemy_src_file prefix frame].

Definition enemy_out_dir (dirname : string) : string :=
  os_path_join DST ["enemies"; dirname].

Definition enemy_dst_path (out_dir frame : string) : string :=
  os_path_join out_dir [enemy_dst_file frame].

(** Lines 77-79: the loop over [WALL_MAP.items()]. *)
Definition wall_loop (items : list (string * string)) (wall_count : nat)
    : M nat :=
  for_eachM items
    (λ (wall_count : nat) '(src_file, dst_file),
       ok ← convert_wall src_file dst_file;
       mret (if ok : bool then wall_count + 1 else wall_count))
    wall_count.

(** Lines 88-98: the loop over one category's frames. *)
Definition frame_loop (prefix out_dir : string) (frames : list string)
    (enemy_count : nat) : M nat :=
  for_eachM frames
    (λ (enemy_count : nat) frame,
       let src_path := enemy_src_path prefix frame in
       let dst_path := enemy_dst_path out_dir frame in
       ok ← convert_enemy src_path dst_path;
       mret (if ok : bool then enemy_count + 1 else enemy_count))
    enemy_count.

(** Lines 85-99: the loop over [ENEMIES]. *)
Definition enemy_loop (enemies : list (string * string * list string))
    (enemy_count : nat) : M nat :=
  for_eachM enemies
    (λ (enemy_count : nat) '(prefix, dirname, frames),
       let out_dir := enemy_out_dir dirname in
       ensure_dir out_dir;;
       enemy_count ← frame_loop prefix out_dir frames enemy_count;
       print ("  OK " +:+ prefix +:+ ": " +:+ str_of_nat (length frames)
              +:+ " frames -> " +:+ dirname +:+ "/");;
       mret enemy_count)
    enemy_count.

(** Lines 73-80. *)
Definition convert_walls : M nat :=
  print "Converting wall textures...";;
  ensure_dir (os_path_join DST ["walls"]);;
  wall_count ← wall_loop WALL_MAP 0;
  print ("  " +:+ str_of_nat wall_count +:+ " wall textures converted."
         +:+ newline);;
  mret wall_count.

(** Lines 82-100. *)
Definition convert_enemies : M nat :=
  print "Converting enemy sprites...";;
  enemy_count ← enemy_loop ENEMIES 0;
  print ("  " +:+ str_of_nat enemy_count +:+ " enemy sprites converted."
         +:+ newline);;
  mret enemy_count.

Definition done_line (wall_count enemy_count : nat) : string :=
  "=== Done: " +:+ str_of_nat wall_count +:+ " walls, "
  +:+ str_of_nat enemy_count +:+ " enemies ===".

(** [main()]; the two counters it reports are returned as well. *)
Definition main : M (nat * nat) :=
  print ("=== Wolf3D BMP -> PNG Converter ===" +:+ newline);;
  wall_count ← convert_walls;
  enemy_count ← convert_enemies;
  print (done_line wall_count enemy_count);;
  mret (wall_count, enemy_count).

End converter.

(** ** Reading a run's trace *)

Definition is_save (e : event) : bool :=
  match e with
  | ESave _ => true
  | _ => false
  end.

(** How many files a stretch of a run wrote. *)
Definition count_saves (t : list event) : nat := length (filter is_save t).

(** Every file written in [t] lies directly in the directory [d]: its
    path is [d] joined with a file name, and [d] is its
    [os.path.dirname]. *)
Definition saves_within (d : string) (t : list event) : Prop :=
  ∀ p, ESave p ∈ t →
    ∃ f, p = os_path_join d [f] ∧ os_path_dirname p = d.

(** No file is written before the directory it lies in, its
    [os.path.dirname], was ensured. *)
Definition dirs_precede_saves (t : list event) : Prop :=
  ∀ t1 p t2, t = t1 ++ ESave p :: t2 →
    EMakedirs (os_path_dirname p) ∈ t1.

(** [w'] is reached from [w] by the events [t]: the trace grows by [t],
    directories stay directories, and every directory ensured in [t]
    exists at the end. *)
Definition run (w w' : world) (t : list event) : Prop :=
  trace w' = trace w ++ t ∧
  (∀ p, fs w !! p = Some Dir → fs w' !! p = Some Dir) ∧
  (∀ d, EMakedirs d ∈ t → fs w' !! d = Some Dir).

(** Every file written in [t] lies directly in one of the directories
    [ds]. *)
Definition saves_among (ds : list string) (t : list event) : Prop :=
  ∀ p, ESave p ∈ t →
    ∃ d f, d ∈ ds ∧ p = os_path_join d [f] ∧ os_path_dirname p = d.

(** The five output directories of a run. *)
Definition walls_dir (script_dir : string) : string :=
  os_path_join (DST script_dir) ["walls"].

(** The directory that holds the categories' output directories. *)
Definition enemies_dir (script_dir : string) : string :=
  os_path_join (DST script_dir) ["enemies"].

Definition enemy_dirs (script_dir : string)
    (enemies : list (string * string * list string)) : list string :=
  (λ e, enemy_out_dir script_dir e.1.2) <$> enemies.

Definition output_dirs (script_dir : string) : list string :=
  walls_dir script_dir :: enemy_dirs script_dir ENEMIES.

(** Every source path the batch looks for. *)
Definition source_paths : list string :=
  ((λ e, wall_src_path e.1) <$> WALL_MAP)
  ++ (ENEMIES ≫= λ e, enemy_src_path e.1.1 <$> e.2).

(** Every directory a run may create: the output directories and the
    directories above them. *)
Definition made_dirs (script_dir : string) : list string :=
  output_dirs script_dir ≫= λ d, d :: ancestors d.




(** The number of frames of a list of categories. *)
Definition frame_total (enemies : list (string * string * list string))
    : nat :=
  sum_list ((λ e, length e.2) <$> enemies).

(** The value a run returns if it finishes, the exception it raises if it
    does not. *)
Definition returned {A : Type} (o : outcome A) : option A :=
  match o with
  | Done a _ => Some a
  | Abort _ _ => None
  end.


(** The world a run ends in, finished or aborted. *)
Definition final_world {A : Type} (m : M A) (w : world) : world :=
  match m w with
  | Done _ w' | Abort _ w' => w'
  end.




(** ** What a run will do, read off the file system it starts in *)

(** What one step of the batch does: skip a missing source, convert a
    source to the image it writes, ensure a directory, or raise. *)
Inductive verdict : Type :=
  | Skips
  | Converts (img : image)
  | Ensures
  | Fails (e : exn).

(** [ensure_dir(d)] in [w]. *)
Definition dir_verdict (w : world) (d : string) : verdict :=
  if existsb (λ a, is_regular (fs w !! a)) (ancestors d)
  then Fails NotADirectoryError
  else if is_regular (fs w !! d) then Fails FileExistsError
  else Ensures.

(** [convert_wall(src_file, dst_file)] in [w]. *)
Definition wall_verdict (script_dir : string) (w : world)
    (src_file dst_file : string) : verdict :=
  match fs w !! wall_src_path src_file with
  | None => Skips
  | Some Dir => Fails IsADirectoryError
  | Some (File Undecodable) => Fails UnidentifiedImageError
  | Some (File (Picture s)) =>
      match fs w !! wall_dst_path script_dir dst_file with
      | Some Dir => Fails IsADirectoryError
      | _ => Converts (convert_RGBA s)
      end
  end.

(** [convert_enemy(src_path, dst_path)] in [w]. *)
Definition enemy_verdict (w : world) (src_path dst_path : string)
    : verdict :=
  match fs w !! src_path with
  | None => Skips
  | Some Dir => Fails IsADirectoryError
  | Some (File Undecodable) => Fails UnidentifiedImageError
  | Some (File (Picture s)) =>
      match colorkey (convert_RGBA s) with
      | Raise e => Fails e
      | Ok img =>
          match fs w !! dst_path with
          | Some Dir => Fails IsADirectoryError
          | _ => Converts img
          end
      end
  end.

(** The steps of the loops, each with the path it may write and its
    verdict in [w], in the order [main] takes them. *)
Definition wall_steps (script_dir : string) (w : world)
    (items : list (string * string)) : list (string * verdict) :=
  (λ e, (wall_dst_path script_dir e.2, wall_verdict script_dir w e.1 e.2))
    <$> items.

Definition frame_steps (w : world) (prefix out_dir : string)
    (frames : list string) : list (string * verdict) :=
  (λ frame, (enemy_dst_path out_dir frame,
             enemy_verdict w (enemy_src_path prefix frame)
               (enemy_dst_path out_dir frame)))
    <$> frames.

Definition enemy_steps (script_dir : string) (w : world)
    (enemies : list (string * string * list string))
    : list (string * verdict) :=
  enemies ≫= λ e,
    (enemy_out_dir script_dir e.1.2,
     dir_verdict w (enemy_out_dir script_dir e.1.2))
    :: frame_steps w e.1.1 (enemy_out_dir script_dir e.1.2) e.2.

Definition walls_plan (script_dir : string) (w : world)
    : list (string * verdict) :=
  (walls_dir script_dir, dir_verdict w (walls_dir script_dir))
  :: wall_steps script_dir w WALL_MAP.

Definition enemies_plan (script_dir : string) (w : world)
    : list (string * verdict) :=
  enemy_steps script_dir w ENEMIES.

Definition plan (script_dir : string) (w : world)
    : list (string * verdict) :=
  walls_plan script_dir w ++ enemies_plan script_dir w.

(** The exception of the first step that fails, if one does. *)
Fixpoint first_failure (l : list (string * verdict)) : option exn :=
  match l with
  | [] => None
  | (_, Fails e) :: _ => Some e
  | _ :: rest => first_failure rest
  end.

(** The steps taken: those before the first failure. *)
Fixpoint executed (l : list (string * verdict)) : list (string * verdict) :=
  match l with
  | [] => []
  | (_, Fails _) :: _ => []
  | step :: rest => step :: executed rest
  end.

Definition is_conversion (step : string * verdict) : bool :=
  match step.2 with
  | Converts _ => true
  | _ => false
  end.

Definition conversions (l : list (string * verdict)) : nat :=
  length (filter is_conversion l).

(** What a step leaves in the file system: a picture at its path, or
    directories at its path and above. *)
Definition write (m : gmap string node) (step : string * verdict)
    : gmap string node :=
  match step.2 with
  | Converts img => <[step.1 := File (png_of img)]> m
  | Ensures => mkdirs (step.1 :: ancestors step.1) m
  | _ => m
  end.

(** The paths of the steps of [plan], and the same paths relative to
    [DST]. *)
Definition plan_paths (script_dir : string) : list string :=
  walls_dir script_dir
  :: ((λ e, wall_dst_path script_dir e.2) <$> WALL_MAP)
  ++ (ENEMIES ≫= λ e,
        enemy_out_dir script_dir e.1.2
        :: (enemy_dst_path (enemy_out_dir script_dir e.1.2) <$> e.2)).

Definition relative_paths : list string :=
  "/walls"
  :: ((λ e : string * string, "/walls/" +:+ e.2) <$> WALL_MAP)
  ++ (ENEMIES ≫= λ e,
        ("/enemies/" +:+ e.1.2)
        :: ((λ frame, "/enemies/" +:+ e.1.2 +:+ "/" +:+ enemy_dst_file frame)
              <$> e.2)).

(** What a step leaves at its path, given what was there. *)
Definition left_by (v : verdict) (o : option node) : option node :=
  match v with
  | Converts img => Some (File (png_of img))
  | Ensures => Some Dir
  | _ => o
  end.

(** Every destination path of the batch. *)
Definition dest_paths (script_dir : string) : list string :=
  ((λ e, wall_dst_path script_dir e.2) <$> WALL_MAP)
  ++ (ENEMIES ≫= λ e,
        enemy_dst_path (enemy_out_dir script_dir e.1.2) <$> e.2).

(** The source paths of the enemy frames. *)
Definition enemy_source_paths : list string :=
  ENEMIES ≫= λ e, enemy_src_path e.1.1 <$> e.2.

(** [os.path.exists(p)] in [w], as a pure test. *)
Definition present (w : world) (p : string) : bool :=
  bool_decide (is_Some (fs w !! p)).


(** [w'] differs from [w] only where the batch writes: what exists in
    [w] at a path that is no destination is there in [w'], unchanged; what
    is new in [w'] at such a path is a directory, at one of [made_dirs];
    a destination is a directory in [w'] only if it was one in [w]. *)
Definition keeps (script_dir : string) (w w' : world) : Prop :=
  (∀ p x, p ∉ dest_paths script_dir →
          fs w !! p = Some x → fs w' !! p = Some x) ∧
  (∀ p, p ∉ dest_paths script_dir → fs w !! p = None →
        fs w' !! p = None ∨
        (p ∈ made_dirs script_dir ∧ fs w' !! p = Some Dir)) ∧
  (∀ q, q ∈ dest_paths script_dir →
        (fs w' !! q = Some Dir ↔ fs w !! q = Some Dir)).

(** The directories above the walls directory, [DST] among them, are in
    place. *)
Definition settled (script_dir : string) (w : world) : Prop :=
  ∀ a, a ∈ ancestors (walls_dir script_dir) → fs w !! a = Some Dir.

(** [w] with the walls directory and the directories above it in place:
    the file system in which the wall loop starts. *)
Definition settle (script_dir : string) (w : world) : world :=
  {| fs := mkdirs (walls_dir script_dir :: ancestors (walls_dir script_dir))
             (fs w);
     trace := trace w |}.

(** The computation [m], started in [w], does what the steps [l] say: it
    raises the first failure of [l], or else returns [r]; either way the
    file system it leaves is that of [w] with the steps taken written. *)
Definition follows {A : Type} (script_dir : string)
    (l : list (string * verdict)) (m : M A) (w : world) (r : A) : Prop :=
  ∃ w', fs w' = foldl write (fs w) (executed l) ∧
        keeps script_dir w w' ∧
        m w = match first_failure l with
              | Some e => Abort e w'
              | None => Done r w'
              end.



(** ** Sample worlds *)

Definition empty_world : world := {| fs := ∅; trace := [] |}.

Definition sample_source : source_image :=
  {| src_size := (2, 2);
     src_pixels := NoAlpha [ (152, 0, 136); (10, 20, 30);
                             (152, 0, 136); (152, 0, 137) ]%Z |}.


(** One wall texture and one guard frame are present. *)
Definition sample_world : world :=
  {| fs := {[ "/tmp/wolf3d-assets/w3d_textures_fix/greybrick1.bmp"
                := File (Picture sample_source);
              "/tmp/wolf3d-assets/w3d_enemies_fix/GARDA1.bmp"
                := File (Picture sample_source) ]};
     trace := [] |}.


(** A small test image: 2 x 2, the key colour at (0,0) and at (0,1). *)
Definition sample_image : image :=
  {| size := (2, 2);
     data := [ (152, 0, 136, 255); (10, 20, 30, 255);
               (152, 0, 136, 255); (152, 0, 137, 255) ]%Z |}.

(** * Properties *)

(** ** The embedding on concrete inputs *)

Lemma returned_final {A} (m : M A) w r :
  returned (m w) = Some r → m w = Done r (final_world m w).
Proof. unfold final_world. destruct (m w); by intros [= ->]. Qed.


Example colorkey_sample :
  colorkey sample_image
  = Ok {| size := (2, 2);
          data := [ (152, 0, 136, 0); (10, 20, 30, 255);
                    (152, 0, 136, 0); (152, 0, 137, 255) ]%Z |}.
Proof. reflexivity. Qed.

Example colorkey_no_pixel :
  colorkey {| size := (0, 0); data := [] |} = Raise IndexError.
Proof. reflexivity. Qed.

Example rotation_sample :
  rotation_of <$> list_of_str "ABCDEFGP" = ["1"; "1"; "1"; "1"; "1"; "0"; "0"; "0"].
Proof. reflexivity. Qed.

Example paths_sample :
  wall_src_path "greybrick1.bmp"
  = "/tmp/wolf3d-assets/w3d_textures_fix/greybrick1.bmp" ∧
  wall_dst_path "/repo/scripts" "wall_0.png"
  = "/repo/scripts/../public/assets/walls/wall_0.png" ∧
  enemy_src_path "GARD" "A" = "/tmp/wolf3d-assets/w3d_enemies_fix/GARDA1.bmp" ∧
  enemy_src_path "MTNT" "P" = "/tmp/wolf3d-assets/w3d_enemies_fix/MTNTP0.bmp" ∧
  enemy_dst_path (enemy_out_dir "/repo/scripts" "guard") "A"
  = "/repo/scripts/../public/assets/enemies/guard/a.png".
Proof. repeat split; reflexivity. Qed.

Example join_absolute_component :
  os_path_join "/a/b" ["c"; "/d"; "e"] = "/d/e" ∧
  os_path_join "/a/" ["b"] = "/a/b" ∧
  os_path_join "" ["b"] = "b".
Proof. repeat split; reflexivity. Qed.

(** Source root entirely absent: the run finishes, converts nothing and
    says so. *)
Example absent_source_root :
  ∃ w', main "/repo/scripts" empty_world = Done (0, 0) w' ∧
        EPrint ("  0 wall textures converted." +:+ newline) ∈ trace w' ∧
        EPrint ("  0 enemy sprites converted." +:+ newline) ∈ trace w' ∧
        last (trace w') = Some (EPrint "=== Done: 0 walls, 0 enemies ===") ∧
        count_saves (trace w') = 0.
Proof.
  exists (final_world (main "/repo/scripts") empty_world).
  split; [apply returned_final; by vm_compute|].
  split; [apply (bool_decide_unpack _); by vm_compute|].
  split; [apply (bool_decide_unpack _); by vm_compute|].
  split; by vm_compute.
Qed.

(** One wall and one guard frame present: both are converted, the guard
    frame with its key colour made transparent. *)
Example sample_world_run :
  ∃ w', main "/repo/scripts" sample_world = Done (1, 1) w' ∧
        fs w' !! "/repo/scripts/../public/assets/walls/wall_0.png"
        = Some (File (png_of (convert_RGBA sample_source))) ∧
        fs w' !! "/repo/scripts/../public/assets/enemies/guard/a.png"
        = Some (File (png_of
             {| size := (2, 2);
                data := [ (152, 0, 136, 0); (10, 20, 30, 255);
                          (152, 0, 136, 0); (152, 0, 137, 255) ]%Z |})).
Proof.
  exists (final_world (main "/repo/scripts") sample_world).
  split; [apply returned_final; by vm_compute|]. split; by vm_compute.
Qed.


Section colorkey_facts.

Implicit Types (img : image) (p bg : pixel) (key : rgb) (d : list pixel).

Lemma rgb_eqb_eq (c1 c2 : rgb) : rgb_eqb c1 c2 = true ↔ c1 = c2.
Proof.
  destruct c1 as [[r1 g1] b1], c2 as [[r2 g2] b2]; unfold rgb_eqb.
  rewrite !andb_true_iff, !Z.eqb_eq.
  split; [intros [[-> ->] ->]; done | intros [= -> -> ->]; done].
Qed.

Lemma rgb_of_key_pixel key p : rgb_of (key_pixel key p) = rgb_of p.
Proof.
  destruct p as [[[r g] b] a]; simpl.
  by destruct (rgb_eqb (r, g, b) key).
Qed.

Lemma key_pixel_idemp key p :
  key_pixel key (key_pixel key p) = key_pixel key p.
Proof.
  destruct p as [[[r g] b] a]; simpl.
  destruct (rgb_eqb (r, g, b) key) eqn:E; simpl; by rewrite E.
Qed.

Lemma key_pixel_match key p :
  rgb_of p = key → key_pixel key p = (rgb_of p, 0%Z).
Proof.
  destruct p as [[[r g] b] a]; simpl; intros <-.
  by rewrite (proj2 (rgb_eqb_eq _ _) eq_refl).
Qed.

Lemma key_pixel_other key p : rgb_of p ≠ key → key_pixel key p = p.
Proof.
  destruct p as [[[r g] b] a]; simpl; intros Hne.
  destruct (rgb_eqb (r, g, b) key) eqn:E; [|done].
  by apply rgb_eqb_eq in E.
Qed.

End colorkey_facts.

Section colorkey_scan_facts.

Implicit Types (img : image) (p bg : pixel) (key : rgb) (d : list pixel).
Implicit Types (order : list (nat * nat)).

Lemma for_each_app {A S} (xs ys : list A) (body : S → A → result S) s :
  for_each (xs ++ ys) body s = for_each xs body s ≫= for_each ys body.
Proof.
  revert s; induction xs as [|x xs IH]; intros s; simpl; [done|].
  destruct (body s x); [apply IH | done].
Qed.

Lemma row_loop_flat bg (xs : list nat) y img :
  for_each xs (λ img x, colorkey_step bg img x y) img
  = colorkey_scan bg (xs ≫= λ x, [(x, y)]) img.
Proof.
  unfold colorkey_scan.
  revert img; induction xs as [|x xs IH]; intros img; simpl; [done|].
  destruct (colorkey_step bg img x y); [apply IH | done].
Qed.

Lemma rows_loop_flat bg (xs ys : list nat) img :
  for_each ys
    (λ img y, for_each xs (λ img x, colorkey_step bg img x y) img) img
  = colorkey_scan bg (ys ≫= λ y, xs ≫= λ x, [(x, y)]) img.
Proof.
  revert img; induction ys as [|y ys IH]; intros img; simpl; [done|].
  unfold colorkey_scan in *. rewrite for_each_app.
  rewrite row_loop_flat. unfold colorkey_scan.
  destruct (for_each (xs ≫= _) _ img); simpl; [apply IH | done].
Qed.

(** The nested loops are the flat scan over [row_major]. *)
Lemma nested_loops_row_major bg w h img :
  for_each (seq 0 h)
    (λ img y, for_each (seq 0 w) (λ img x, colorkey_step bg img x y) img)
    img
  = colorkey_scan bg (row_major w h) img.
Proof. apply rows_loop_flat. Qed.

Lemma getpixel_Ok img x y p :
  getpixel img x y = Ok p ↔
  x < width img ∧ y < height img ∧ data img !! (y * width img + x) = Some p.
Proof.
  unfold getpixel, width, height. destruct (size img) as [w h]; simpl.
  destruct (Nat.ltb_spec x w), (Nat.ltb_spec y h); simpl;
    try (split; [done | lia]).
  destruct (data img !! (y * w + x)) as [q|].
  - split; [intros [= ->]; done | intros (_ & _ & [= ->]); done].
  - split; [done | intros (_ & _ & [=])].
Qed.

Lemma index_in_range w h x y : x < w → y < h → y * w + x < h * w.
Proof. nia. Qed.

Lemma getpixel_in_range img x y :
  well_formed img → x < width img → y < height img →
  ∃ p, getpixel img x y = Ok p.
Proof.
  intros Hwf Hx Hy.
  destruct (lookup_lt_is_Some_2 (data img) (y * width img + x)) as [p Hp].
  { rewrite Hwf. by apply index_in_range. }
  exists p. by apply getpixel_Ok.
Qed.

Lemma alter_insert_lookup {A} (f : A → A) (l : list A) i a :
  l !! i = Some a → <[i := f a]> l = alter f i l.
Proof.
  intros Hi. apply list_eq; intros j.
  destruct (decide (i = j)) as [<-|Hne].
  - rewrite list_lookup_insert_eq by (by eapply lookup_lt_Some).
    by rewrite list_lookup_alter_eq, Hi.
  - by rewrite list_lookup_insert_ne, list_lookup_alter_ne.
Qed.

Lemma alter_fixpoint {A} (f : A → A) (l : list A) i a :
  l !! i = Some a → f a = a → alter f i l = l.
Proof.
  intros Hi Hf. rewrite <- (alter_insert_lookup f l i a Hi), Hf.
  by apply list_insert_id.
Qed.

(** One step of the scan alters exactly the visited cell, by the pure
    per-pixel function. *)
Lemma colorkey_step_alter bg img x y :
  x < width img → y < height img →
  y * width img + x < length (data img) →
  colorkey_step bg img x y
  = Ok {| size := size img;
          data := alter (key_pixel (rgb_of bg)) (y * width img + x)
                    (data img) |}.
Proof.
  intros Hx Hy Hlen.
  destruct (lookup_lt_is_Some_2 _ _ Hlen) as [p Hp].
  unfold colorkey_step.
  rewrite (proj2 (getpixel_Ok img x y p)) by done.
  destruct p as [[[r g] b] a]; simpl.
  destruct (rgb_eqb (r, g, b) (rgb_of bg)) eqn:E.
  - unfold putpixel. unfold width, height in *.
    destruct (size img) as [w h] eqn:Hs; simpl in *.
    rewrite (proj2 (Nat.ltb_lt _ _) Hx), (proj2 (Nat.ltb_lt _ _) Hy),
      (proj2 (Nat.ltb_lt _ _) Hlen); simpl.
    f_equal. f_equal.
    rewrite <- (alter_insert_lookup _ _ _ _ Hp). simpl. by rewrite E.
  - destruct img as [sz d]; simpl in *. f_equal. f_equal.
    symmetry. eapply alter_fixpoint; [done|]. simpl. by rewrite E.
Qed.

Lemma length_alter_cells key w order d :
  length (alter_cells key w order d) = length d.
Proof.
  revert d; induction order as [|c order IH]; intros d; simpl; [done|].
  unfold alter_cells in *; simpl. by rewrite IH, length_alter.
Qed.

Lemma colorkey_scan_alter bg order img :
  well_formed img →
  Forall (in_bounds (width img) (height img)) order →
  colorkey_scan bg order img
  = Ok {| size := size img;
          data := alter_cells (rgb_of bg) (width img) order (data img) |}.
Proof.
  intros Hwf Hall. revert img Hwf Hall.
  induction order as [|[x y] order IH]; intros img Hwf Hall.
  - by destruct img.
  - apply Forall_cons in Hall as [[Hx Hy] Hall]; simpl in Hx, Hy.
    unfold colorkey_scan in *; simpl.
    rewrite colorkey_step_alter; [|done|done|].
    2:{ rewrite Hwf. by apply index_in_range. }
    rewrite IH; [done| |done].
    unfold well_formed; simpl. by rewrite length_alter.
Qed.

Lemma lookup_alter_cells key w order d i :
  alter_cells key w order d !! i
  = if decide (i ∈ cell w <$> order) then key_pixel key <$> d !! i
    else d !! i.
Proof.
  revert d; induction order as [|c order IH]; intros d.
  - case_decide as Hin; [by apply elem_of_nil in Hin | done].
  - change (alter_cells key w (c :: order) d)
      with (alter_cells key w order (alter (key_pixel key) (cell w c) d)).
    rewrite IH, fmap_cons.
    destruct (decide (cell w c = i)) as [<-|Hne].
    + rewrite list_lookup_alter_eq.
      rewrite (decide_True (P := cell w c ∈ cell w c :: _))
        by apply list_elem_of_here.
      case_decide; [|done].
      destruct (d !! cell w c); simpl; [|done].
      by rewrite key_pixel_idemp.
    + rewrite list_lookup_alter_ne by done.
      case_decide as Hin.
      * rewrite decide_True; [done | by apply list_elem_of_further].
      * rewrite decide_False; [done|].
        intros [?|?]%elem_of_cons; done.
Qed.

(** A scan that reaches every cell computes the per-pixel map. *)
Lemma alter_cells_all key w order d :
  (∀ i, i < length d → i ∈ cell w <$> order) →
  alter_cells key w order d = key_pixel key <$> d.
Proof.
  intros Hcover. apply list_eq; intros i.
  rewrite lookup_alter_cells, list_lookup_fmap.
  case_decide as Hi; [done|].
  destruct (d !! i) eqn:Hd; [|done].
  destruct Hi. apply Hcover. by eapply lookup_lt_Some.
Qed.

Lemma elem_of_row_major w h x y :
  (x, y) ∈ row_major w h ↔ x < w ∧ y < h.
Proof.
  unfold row_major. rewrite list_elem_of_bind. split.
  - intros (y' & Hin & Hy). apply list_elem_of_bind in Hin as (x' & Hin & Hx).
    apply list_elem_of_singleton in Hin as [= -> ->].
    apply elem_of_seq in Hx, Hy. lia.
  - intros [Hx Hy]. exists y. split; [|apply elem_of_seq; lia].
    apply list_elem_of_bind. exists x. split; [set_solver|apply elem_of_seq; lia].
Qed.

Lemma cell_surjective w h i :
  i < h * w → ∃ x y, x < w ∧ y < h ∧ cell w (x, y) = i.
Proof.
  intros Hi. assert (w ≠ 0) by (intros ->; lia).
  exists (i `mod` w), (i `div` w). unfold cell; simpl.
  split; [by apply Nat.mod_upper_bound|].
  split; [apply Nat.Div0.div_lt_upper_bound; lia|].
  rewrite (Nat.div_mod_eq i w) at 3. lia.
Qed.

End colorkey_scan_facts.


(** ** The colorkey extraction of [convert_enemy] *)

Lemma row_major_in_bounds w h : Forall (in_bounds w h) (row_major w h).
Proof.
  apply Forall_forall. intros [x y] Hc. by apply elem_of_row_major in Hc.
Qed.

Lemma covering_cells w h (order : list (nat * nat)) i :
  (∀ x y, x < w → y < h → (x, y) ∈ order) →
  i < h * w → i ∈ cell w <$> order.
Proof.
  intros Hcover Hi.
  destruct (cell_surjective w h i Hi) as (x & y & Hx & Hy & <-).
  apply list_elem_of_fmap. exists (x, y). split; [done | by apply Hcover].
Qed.

(** Any scan that stays in bounds and reaches every coordinate computes
    the per-pixel map, whatever its order and whatever it repeats. *)
Lemma colorkey_scan_covering bg (order : list (nat * nat)) img :
  well_formed img →
  Forall (in_bounds (width img) (height img)) order →
  (∀ x y, x < width img → y < height img → (x, y) ∈ order) →
  colorkey_scan bg order img = Ok (colorkey_map (rgb_of bg) img).
Proof.
  intros Hwf Hin Hcover.
  rewrite colorkey_scan_alter by done.
  unfold colorkey_map. f_equal. f_equal.
  apply alter_cells_all. intros i Hi.
  apply (covering_cells _ (height img)); [done|]. by rewrite <- Hwf.
Qed.

Lemma colorkey_unfold img :
  colorkey img
  = bg ← getpixel img 0 0;
    colorkey_scan bg (row_major (width img) (height img)) img.
Proof.
  unfold colorkey, width, height.
  destruct (getpixel img 0 0) as [bg|e]; simpl; [|done].
  destruct (size img) as [w h]; simpl. apply nested_loops_row_major.
Qed.

Lemma colorkey_is_map img bg :
  well_formed img → getpixel img 0 0 = Ok bg →
  colorkey img = Ok (colorkey_map (rgb_of bg) img).
Proof.
  intros Hwf Hbg. rewrite colorkey_unfold, Hbg; simpl.
  apply colorkey_scan_covering; [done | apply row_major_in_bounds |].
  intros x y Hx Hy. by apply elem_of_row_major.
Qed.

Lemma colorkey_map_well_formed key img :
  well_formed img → well_formed (colorkey_map key img).
Proof.
  unfold well_formed, colorkey_map, width, height; simpl.
  by rewrite length_fmap.
Qed.

Lemma getpixel_colorkey_map key img x y :
  getpixel (colorkey_map key img) x y = key_pixel key <$> getpixel img x y.
Proof.
  unfold getpixel, colorkey_map; simpl.
  destruct (size img) as [w h].
  destruct ((x <? w) && (y <? h)); [|done].
  rewrite list_lookup_fmap. by destruct (data img !! (y * w + x)).
Qed.

(** C1. For a decoded RGBA image with a pixel [bg] at (0,0), the
    extraction succeeds and its key is the (R,G,B) of [bg], whatever the
    alpha of [bg]; the result has the size of the input; a pixel whose
    (R,G,B) equals the key keeps its R,G,B and gets alpha 0; any other
    pixel is unchanged in all four channels. *)
Theorem colorkey_extraction img bg :
  well_formed img → getpixel img 0 0 = Ok bg →
  ∃ out,
    colorkey img = Ok out ∧
    size out = size img ∧ well_formed out ∧
    ∀ x y p, getpixel img x y = Ok p →
      getpixel out x y
      = Ok (if decide (rgb_of p = rgb_of bg) then (rgb_of p, 0%Z) else p).
Proof.
  intros Hwf Hbg.
  exists (colorkey_map (rgb_of bg) img).
  split; [by apply colorkey_is_map|].
  split; [done|]. split; [by apply colorkey_map_well_formed|].
  intros x y p Hp.
  rewrite getpixel_colorkey_map, Hp; simpl. f_equal.
  case_decide as Hkey.
  - by apply key_pixel_match.
  - by apply key_pixel_other.
Qed.

Lemma colorkey_extraction_witness :
  ∃ out,
    colorkey sample_image = Ok out ∧
    size out = size sample_image ∧ well_formed out ∧
    ∀ x y p, getpixel sample_image x y = Ok p →
      getpixel out x y
      = Ok (if decide (rgb_of p = rgb_of (152, 0, 136, 255)%Z)
            then (rgb_of p, 0%Z) else p).
Proof.
  apply (colorkey_extraction sample_image (152, 0, 136, 255)%Z);
    reflexivity.
Defined.

(** C2. Applying the extraction to its own result changes nothing: the
    second pass reads the same key and finds every key-coloured pixel
    already transparent.  (On an image with no pixel at (0,0) both sides
    raise [IndexError].) *)
Theorem colorkey_idempotent img :
  well_formed img →
  colorkey img ≫= colorkey = colorkey img.
Proof.
  intros Hwf.
  destruct (getpixel img 0 0) as [bg|e] eqn:Hbg.
  - rewrite (colorkey_is_map img bg) by done; simpl.
    assert (Hbg' : getpixel (colorkey_map (rgb_of bg) img) 0 0
                   = Ok (key_pixel (rgb_of bg) bg))
      by (by rewrite getpixel_colorkey_map, Hbg).
    rewrite (colorkey_is_map _ _ (colorkey_map_well_formed _ _ Hwf) Hbg').
    rewrite rgb_of_key_pixel.
    unfold colorkey_map; simpl. f_equal. f_equal.
    rewrite <- list_fmap_compose. apply list_fmap_ext.
    intros i p _; simpl. apply key_pixel_idemp.
  - rewrite colorkey_unfold, Hbg. done.
Qed.

Lemma colorkey_idempotent_witness :
  colorkey sample_image ≫= colorkey = colorkey sample_image.
Proof. apply (colorkey_idempotent sample_image). reflexivity. Defined.

(** C7. The in-place row-major scan equals the pure per-pixel map, and so
    does the same loop body run over the coordinates in any other order:
    the key is fixed before the scan and a pixel's new value depends on
    its own colour only. *)
Theorem colorkey_order_independent img (order : list (nat * nat)) :
  well_formed img →
  order ≡ₚ row_major (width img) (height img) →
  colorkey img
  = (bg ← getpixel img 0 0; Ok (colorkey_map (rgb_of bg) img)) ∧
  ∀ bg, colorkey_scan bg order img = Ok (colorkey_map (rgb_of bg) img).
Proof.
  intros Hwf Hperm. split.
  - destruct (getpixel img 0 0) as [bg|e] eqn:Hbg; simpl.
    + by apply colorkey_is_map.
    + by rewrite colorkey_unfold, Hbg.
  - intros bg. apply colorkey_scan_covering; [done | |].
    + rewrite Hperm. apply row_major_in_bounds.
    + intros x y Hx Hy. rewrite Hperm. by apply elem_of_row_major.
Qed.

Lemma colorkey_order_independent_witness :
  colorkey sample_image
  = (bg ← getpixel sample_image 0 0;
     Ok (colorkey_map (rgb_of bg) sample_image)) ∧
  ∀ bg, colorkey_scan bg [(1, 1); (0, 0); (1, 0); (0, 1)] sample_image
        = Ok (colorkey_map (rgb_of bg) sample_image).
Proof.
  apply (colorkey_order_independent sample_image);
    [reflexivity|].
  exact (Permutation_cons_append [(0, 0); (1, 0); (0, 1)] (1, 1)).
Defined.

(** C9. On a well-formed image of width and height at least 1 the read of
    the key at (0,0) is in bounds; the nested loops are the scan of the
    coordinates [row_major], which are exactly those with
    [0 <= x < width] and [0 <= y < height]; every read and write at such a
    coordinate is in bounds on every store the scan can hold; and the
    extraction as a whole returns, never raising [IndexError]. *)
Theorem colorkey_in_bounds img :
  well_formed img → 0 < width img → 0 < height img →
  (∃ bg, getpixel img 0 0 = Ok bg) ∧
  colorkey img
  = (bg ← getpixel img 0 0;
     colorkey_scan bg (row_major (width img) (height img)) img) ∧
  (∀ x y, (x, y) ∈ row_major (width img) (height img)
          ↔ x < width img ∧ y < height img) ∧
  (∀ cur x y p, well_formed cur → size cur = size img →
     (x, y) ∈ row_major (width img) (height img) →
     (∃ q, getpixel cur x y = Ok q) ∧ (∃ cur', putpixel cur x y p = Ok cur')) ∧
  (∃ out, colorkey img = Ok out).
Proof.
  intros Hwf Hw Hh.
  destruct (getpixel_in_range img 0 0 Hwf Hw Hh) as [bg Hbg].
  split; [by exists bg|].
  split; [apply colorkey_unfold|].
  split; [intros x y; apply elem_of_row_major|].
  split.
  - intros cur x y p Hcur Hsize [Hx Hy]%elem_of_row_major.
    unfold width, height in Hx, Hy. rewrite <- Hsize in Hx, Hy.
    split; [by apply getpixel_in_range|].
    unfold putpixel. unfold well_formed, width, height in Hcur.
    destruct (size cur) as [w h]; simpl in *.
    rewrite (proj2 (Nat.ltb_lt _ _) Hx), (proj2 (Nat.ltb_lt _ _) Hy); simpl.
    rewrite (proj2 (Nat.ltb_lt (y * w + x) _)); [by eexists|].
    rewrite Hcur. by apply index_in_range.
  - eexists. by apply colorkey_is_map.
Qed.

Lemma colorkey_in_bounds_witness :
  (∃ bg, getpixel sample_image 0 0 = Ok bg) ∧
  colorkey sample_image
  = (bg ← getpixel sample_image 0 0;
     colorkey_scan bg
       (row_major (width sample_image) (height sample_image)) sample_image) ∧
  (∀ x y, (x, y) ∈ row_major (width sample_image) (height sample_image)
          ↔ x < width sample_image ∧ y < height sample_image) ∧
  (∀ cur x y p, well_formed cur → size cur = size sample_image →
     (x, y) ∈ row_major (width sample_image) (height sample_image) →
     (∃ q, getpixel cur x y = Ok q) ∧ (∃ cur', putpixel cur x y p = Ok cur')) ∧
  (∃ out, colorkey sample_image = Ok out).
Proof.
  apply (colorkey_in_bounds sample_image);
    [reflexivity | vm_compute; lia | vm_compute; lia].
Defined.


(** ** Names and paths *)

Section path_facts.

Implicit Types (a b path s : string).

Lemma str_app_cons c a b : String c a +:+ b = String c (a +:+ b).
Proof. reflexivity. Qed.

Lemma str_app_assoc a b s : (a +:+ b) +:+ s = a +:+ (b +:+ s).
Proof.
  induction a as [|c a IH]; [done|].
  by rewrite !str_app_cons, IH.
Qed.

Lemma str_app_nil_r a : a +:+ "" = a.
Proof. induction a as [|c a IH]; [done|]. by rewrite str_app_cons, IH. Qed.

Lemma str_length_app a b :
  String.length (a +:+ b) = String.length a + String.length b.
Proof.
  induction a as [|c a IH]; [done|].
  rewrite str_app_cons; simpl. by rewrite IH.
Qed.

Lemma is_empty_app a b : is_empty (a +:+ b) = is_empty a && is_empty b.
Proof. by destruct a. Qed.

Lemma endswith_sep_app a b :
  is_empty b = false → endswith_sep (a +:+ b) = endswith_sep b.
Proof.
  intros Hb. induction a as [|c a IH]; [done|].
  rewrite str_app_cons; simpl. rewrite IH.
  destruct (a +:+ b) eqn:E; [|done].
  assert (Hab : is_empty (a +:+ b) = true) by (by rewrite E).
  by rewrite is_empty_app, Hb, andb_false_r in Hab.
Qed.

(** Joining a component that is not absolute onto a directory name that
    is not empty and has no trailing separator inserts one separator. *)
Lemma join_step_plain path b :
  is_empty path = false → endswith_sep path = false →
  startswith_sep b = false →
  join_step path b = path +:+ "/" +:+ b.
Proof. intros Hp He Hb. unfold join_step. by rewrite Hb, Hp, He. Qed.

Lemma join_step_suffix path b : ∃ pre, join_step path b = pre +:+ b.
Proof.
  unfold join_step.
  destruct (startswith_sep b || is_empty path); [by exists ""|].
  destruct (endswith_sep path); [by exists path|].
  exists (path +:+ "/"). by rewrite str_app_assoc.
Qed.

Lemma join_step_is_dir_name path b :
  is_empty b = false → endswith_sep b = false →
  is_empty (join_step path b) = false ∧
  endswith_sep (join_step path b) = false.
Proof.
  intros Hb He. destruct (join_step_suffix path b) as [pre ->].
  by rewrite is_empty_app, endswith_sep_app, Hb, andb_false_r.
Qed.

Lemma has_sep_startswith b : has_sep b = false → startswith_sep b = false.
Proof.
  destruct b as [|c b]; [done|]. simpl. intros [Hc _]%orb_false_iff.
  destruct (Ascii.eqb_spec c "/") as [->|Hne]; [done|].
  destruct c as [[] [] [] [] [] [] [] []]; done.
Qed.

(** *** [os.path.dirname] and the directories above a path *)

Lemma upto_last_sep_prefix p : ∃ s, p = upto_last_sep p +:+ s.
Proof.
  induction p as [|c p [s IH]]; [by exists ""|]. simpl.
  destruct (upto_last_sep p) as [|c' h].
  - destruct (Ascii.eqb c "/"); [by exists p | by exists (String c p)].
  - exists s. rewrite str_app_cons. by rewrite <- IH.
Qed.

Lemma rstrip_sep_prefix s : ∃ rest, s = rstrip_sep s +:+ rest.
Proof.
  induction s as [|c s [rest IH]]; [by exists ""|]. simpl.
  destruct (rstrip_sep s) as [|c' r].
  - destruct (Ascii.eqb c "/");
      [by exists (String c s) | exists s; by rewrite str_app_cons].
  - exists rest. rewrite str_app_cons. by rewrite <- IH.
Qed.

Lemma os_path_dirname_prefix p : ∃ s, p = os_path_dirname p +:+ s.
Proof.
  unfold os_path_dirname.
  destruct (upto_last_sep_prefix p) as [s Hs].
  destruct (is_empty _); [by exists s|].
  destruct (rstrip_sep_prefix (upto_last_sep p)) as [s' Hs'].
  exists (s' +:+ s). by rewrite <- str_app_assoc, <- Hs'.
Qed.

Lemma os_path_dirname_shorter p :
  os_path_dirname p ≠ p →
  String.length (os_path_dirname p) < String.length p.
Proof.
  intros Hne. destruct (os_path_dirname_prefix p) as [s Hs].
  destruct s as [|c s].
  - rewrite str_app_nil_r in Hs. by destruct Hne.
  - rewrite Hs at 2. rewrite str_length_app. simpl. lia.
Qed.

(** The bound on the number of steps is never reached. *)
Lemma ancestors_upto_enough n m p :
  String.length p ≤ n → String.length p ≤ m →
  ancestors_upto n p = ancestors_upto m p.
Proof.
  revert m p. induction n as [|n IH]; intros m p Hn Hm.
  - destruct p; [|simpl in Hn; lia]. by destruct m.
  - destruct m as [|m].
    + destruct p; [done|simpl in Hm; lia].
    + simpl. destruct (is_empty (os_path_dirname p)); [done|]. simpl.
      destruct (String.eqb_spec (os_path_dirname p) p) as [|Hne]; [done|].
      pose proof (os_path_dirname_shorter p Hne).
      f_equal. apply IH; lia.
Qed.

Lemma ancestors_unfold p :
  ancestors p
  = if is_empty (os_path_dirname p) || String.eqb (os_path_dirname p) p
    then [] else os_path_dirname p :: ancestors (os_path_dirname p).
Proof.
  unfold ancestors at 1. destruct p as [|c p]; [done|].
  change (String.length (String c p)) with (S (String.length p)).
  simpl ancestors_upto.
  destruct (is_empty _); [done|]. simpl.
  destruct (String.eqb_spec (os_path_dirname (String c p)) (String c p))
    as [|Hne]; [done|].
  f_equal. apply ancestors_upto_enough; [|done].
  pose proof (os_path_dirname_shorter _ Hne) as H. simpl in H. lia.
Qed.

Lemma ancestors_shorter p a :
  a ∈ ancestors p → String.length a < String.length p.
Proof.
  remember (String.length p) as n eqn:Hn. revert p Hn a.
  induction (lt_wf n) as [n _ IH]. intros p -> a.
  rewrite ancestors_unfold.
  destruct (is_empty _); [by intros ?%elem_of_nil|]. simpl.
  destruct (String.eqb_spec (os_path_dirname p) p) as [|Hne];
    [by intros ?%elem_of_nil|].
  pose proof (os_path_dirname_shorter p Hne) as Hlt.
  intros [->|Ha]%elem_of_cons; [done|].
  specialize (IH _ Hlt _ eq_refl a Ha). lia.
Qed.

Lemma upto_last_sep_plain f : has_sep f = false → upto_last_sep f = "".
Proof.
  induction f as [|c f IH]; [done|]. simpl.
  intros [Hc Hf]%orb_false_iff. by rewrite IH, Hc.
Qed.

Lemma upto_last_sep_join a f :
  has_sep f = false → upto_last_sep (a +:+ "/" +:+ f) = a +:+ "/".
Proof.
  intros Hf. induction a as [|c a IH].
  - change ("" +:+ "/" +:+ f) with (String "/" f). simpl.
    by rewrite upto_last_sep_plain.
  - rewrite (str_app_cons c a), (str_app_cons c a). simpl. rewrite IH.
    destruct (a +:+ "/") eqn:E; [|done].
    assert (H : is_empty (a +:+ "/") = true) by (by rewrite E).
    by rewrite is_empty_app, andb_false_r in H.
Qed.

Lemma rstrip_sep_dir_name a : endswith_sep a = false → rstrip_sep a = a.
Proof.
  induction a as [|c a IH]; [done|]. simpl. intros H.
  destruct a as [|c' a].
  - simpl. by rewrite H.
  - by rewrite IH.
Qed.

Lemma rstrip_sep_slash a : rstrip_sep (a +:+ "/") = rstrip_sep a.
Proof.
  induction a as [|c a IH]; [done|].
  rewrite str_app_cons. simpl. by rewrite IH.
Qed.

(** A file name joined onto a directory name: the directory is the
    [dirname] of the result, and the first of the directories above it. *)
Lemma os_path_dirname_join a f :
  is_empty a = false → endswith_sep a = false → has_sep f = false →
  os_path_dirname (a +:+ "/" +:+ f) = a.
Proof.
  intros Ha He Hf. unfold os_path_dirname.
  rewrite upto_last_sep_join, rstrip_sep_slash, rstrip_sep_dir_name by done.
  by rewrite Ha.
Qed.

Lemma ancestors_join a f :
  is_empty a = false → endswith_sep a = false → has_sep f = false →
  ancestors (a +:+ "/" +:+ f) = a :: ancestors a.
Proof.
  intros Ha He Hf. rewrite ancestors_unfold, os_path_dirname_join by done.
  rewrite Ha. simpl.
  destruct (String.eqb_spec a (a +:+ "/" +:+ f)) as [E|]; [|done].
  apply (f_equal String.length) in E. rewrite !str_length_app in E.
  simpl in E. lia.
Qed.

Lemma DST_is_dir_name script_dir :
  is_empty (DST script_dir) = false ∧ endswith_sep (DST script_dir) = false.
Proof. by apply join_step_is_dir_name. Qed.

Lemma join_DST script_dir b :
  startswith_sep b = false →
  join_step (DST script_dir) b = DST script_dir +:+ "/" +:+ b.
Proof.
  intros Hb. destruct (DST_is_dir_name script_dir).
  by apply join_step_plain.
Qed.

End path_facts.

(** Case analysis on membership in one of the static tables. *)
Ltac in_table H :=
  repeat match type of H with
    | _ ∈ _ :: _ => apply elem_of_cons in H as [H|H]
    | _ ∈ [] => by apply elem_of_nil in H
    end.

Lemma ENEMIES_names prefix dirname frames frame :
  (prefix, dirname, frames) ∈ ENEMIES → frame ∈ frames →
  startswith_sep dirname = false ∧ is_empty dirname = false ∧
  endswith_sep dirname = false ∧
  startswith_sep (enemy_src_file prefix frame) = false ∧
  startswith_sep (enemy_dst_file frame) = false ∧
  rotation_of frame
  = (if decide (frame ∈ list_of_str "ABCDE") then "1" else "0").
Proof.
  intros Hcat Hframe. unfold ENEMIES in Hcat.
  in_table Hcat; injection Hcat as -> -> ->;
    simpl in Hframe; in_table Hframe; subst frame; by vm_compute.
Qed.

Lemma ENEMIES_plain_names prefix dirname frames frame :
  (prefix, dirname, frames) ∈ ENEMIES → frame ∈ frames →
  has_sep dirname = false ∧ has_sep (enemy_dst_file frame) = false ∧
  has_sep (enemy_src_file prefix frame) = false.
Proof.
  intros Hcat Hframe. unfold ENEMIES in Hcat.
  in_table Hcat; injection Hcat as -> -> ->;
    simpl in Hframe; in_table Hframe; subst frame; by vm_compute.
Qed.

Lemma ENEMIES_dirnames prefix dirname frames :
  (prefix, dirname, frames) ∈ ENEMIES →
  startswith_sep dirname = false ∧ is_empty dirname = false ∧
  endswith_sep dirname = false ∧ has_sep dirname = false.
Proof.
  intros Hcat. unfold ENEMIES in Hcat.
  in_table Hcat; injection Hcat as -> -> ->; by vm_compute.
Qed.

Lemma WALL_MAP_names src_file dst_file :
  (src_file, dst_file) ∈ WALL_MAP →
  has_sep src_file = false ∧ has_sep dst_file = false.
Proof.
  intros Hin. unfold WALL_MAP in Hin.
  in_table Hin; injection Hin as -> ->; by vm_compute.
Qed.

(** The letters of the frame lists, each with its small letter. *)
Lemma ENEMIES_letters prefix dirname frames frame :
  (prefix, dirname, frames) ∈ ENEMIES → frame ∈ frames →
  (frame, lower frame)
  ∈ zip (list_of_str "ABCDEFGHIJKLMNOP") (list_of_str "abcdefghijklmnop").
Proof.
  intros Hcat Hframe. unfold ENEMIES in Hcat.
  in_table Hcat; injection Hcat as -> -> ->;
    simpl in Hframe; in_table Hframe; subst frame;
    apply (bool_decide_unpack _); by vm_compute.
Qed.

(** C3. For every category of [ENEMIES] and every frame identifier of its
    frame list, the rotation digit is "1" when the identifier is one of
    'A'..'E' and "0" for every later one. *)
Theorem rotation_digit_rule prefix dirname frames frame :
  (prefix, dirname, frames) ∈ ENEMIES → frame ∈ frames →
  (frame ∈ list_of_str "ABCDE" → rotation_of frame = "1") ∧
  (frame ∉ list_of_str "ABCDE" → rotation_of frame = "0").
Proof.
  intros Hcat Hframe.
  destruct (ENEMIES_names _ _ _ _ Hcat Hframe) as (_ & _ & _ & _ & _ & ->).
  split; intros H; case_decide; done.
Qed.

Lemma rotation_digit_rule_witness :
  ("C" ∈ list_of_str "ABCDE" → rotation_of "C" = "1") ∧
  ("C" ∉ list_of_str "ABCDE" → rotation_of "C" = "0").
Proof.
  apply (rotation_digit_rule "GARD" "guard" (list_of_str "ABCDEFGHIJKLMN"));
    vm_compute; set_solver.
Defined.

Lemma enemy_out_dir_eq script_dir dirname :
  startswith_sep dirname = false →
  enemy_out_dir script_dir dirname
  = DST script_dir +:+ "/enemies/" +:+ dirname.
Proof.
  intros Hd. unfold enemy_out_dir, os_path_join; simpl.
  rewrite (join_DST script_dir "enemies") by done.
  destruct (DST_is_dir_name script_dir) as [Hne _].
  rewrite join_step_plain; [by rewrite !str_app_assoc | | | done].
  - by rewrite is_empty_app, Hne.
  - by rewrite endswith_sep_app.
Qed.

Lemma enemy_out_dir_is_dir_name script_dir dirname :
  startswith_sep dirname = false → is_empty dirname = false →
  endswith_sep dirname = false →
  is_empty (enemy_out_dir script_dir dirname) = false ∧
  endswith_sep (enemy_out_dir script_dir dirname) = false.
Proof.
  intros Hs He Hd. rewrite enemy_out_dir_eq by done.
  rewrite <- str_app_assoc.
  by rewrite is_empty_app, endswith_sep_app, He, andb_false_r.
Qed.

(** C6. For every category of [ENEMIES] and every frame of its list.
    The frame is one of the letters 'A'..'P'; write [small] for its small
    letter and [digit] for "1" when the frame is one of 'A'..'E' and "0"
    otherwise.  The source file name is prefix, frame, digit and ".bmp"
    joined together, and the source path is that name directly under the
    fixed directory [/tmp/wolf3d-assets/w3d_enemies_fix]; the destination
    file name is [small] followed by ".png", and the destination path is
    that name directly under the category's output directory
    [DST/enemies/dirname]. *)
Theorem enemy_file_names script_dir prefix dirname frames frame :
  (prefix, dirname, frames) ∈ ENEMIES → frame ∈ frames →
  ∃ small digit,
    (frame, small)
    ∈ zip (list_of_str "ABCDEFGHIJKLMNOP") (list_of_str "abcdefghijklmnop") ∧
    (frame ∈ list_of_str "ABCDE" → digit = "1") ∧
    (frame ∉ list_of_str "ABCDE" → digit = "0") ∧
    enemy_src_file prefix frame = prefix +:+ frame +:+ digit +:+ ".bmp" ∧
    enemy_src_path prefix frame
    = "/tmp/wolf3d-assets/w3d_enemies_fix/"
      +:+ prefix +:+ frame +:+ digit +:+ ".bmp" ∧
    os_path_dirname (enemy_src_path prefix frame)
    = "/tmp/wolf3d-assets/w3d_enemies_fix" ∧
    enemy_dst_file frame = small +:+ ".png" ∧
    enemy_out_dir script_dir dirname
    = DST script_dir +:+ "/enemies/" +:+ dirname ∧
    enemy_dst_path (enemy_out_dir script_dir dirname) frame
    = DST script_dir +:+ "/enemies/" +:+ dirname +:+ "/" +:+ small +:+ ".png" ∧
    os_path_dirname (enemy_dst_path (enemy_out_dir script_dir dirname) frame)
    = enemy_out_dir script_dir dirname.
Proof.
  intros Hcat Hframe.
  destruct (ENEMIES_names _ _ _ _ Hcat Hframe)
    as (Hd1 & Hd2 & Hd3 & Hsrc & Hdst & Hrot).
  destruct (ENEMIES_plain_names _ _ _ _ Hcat Hframe) as (_ & Hpd & Hps).
  destruct (enemy_out_dir_is_dir_name script_dir dirname) as [Hne Hns];
    [done..|].
  assert (Hpath : enemy_src_path prefix frame
                  = "/tmp/wolf3d-assets/w3d_enemies_fix" +:+ "/"
                    +:+ enemy_src_file prefix frame).
  { unfold enemy_src_path, os_path_join; simpl.
    change (join_step SRC "w3d_enemies_fix")
      with "/tmp/wolf3d-assets/w3d_enemies_fix".
    by rewrite join_step_plain. }
  assert (Hout : enemy_dst_path (enemy_out_dir script_dir dirname) frame
                 = enemy_out_dir script_dir dirname +:+ "/"
                   +:+ enemy_dst_file frame).
  { unfold enemy_dst_path, os_path_join; simpl. by apply join_step_plain. }
  exists (lower frame), (rotation_of frame).
  split; [by eapply ENEMIES_letters|].
  split; [intros H; rewrite Hrot; by case_decide|].
  split; [intros H; rewrite Hrot; by case_decide|].
  split; [done|].
  split; [by rewrite Hpath|].
  split; [rewrite Hpath; by apply os_path_dirname_join|].
  split; [done|].
  split; [by apply enemy_out_dir_eq|].
  split.
  - rewrite Hout, enemy_out_dir_eq by done. by rewrite !str_app_assoc.
  - rewrite Hout. by apply os_path_dirname_join.
Qed.

Lemma enemy_file_names_witness :
  ∃ small digit,
    ("F", small)
    ∈ zip (list_of_str "ABCDEFGHIJKLMNOP") (list_of_str "abcdefghijklmnop") ∧
    ("F" ∈ list_of_str "ABCDE" → digit = "1") ∧
    ("F" ∉ list_of_str "ABCDE" → digit = "0") ∧
    enemy_src_file "OFFI" "F" = "OFFI" +:+ "F" +:+ digit +:+ ".bmp" ∧
    enemy_src_path "OFFI" "F"
    = "/tmp/wolf3d-assets/w3d_enemies_fix/"
      +:+ "OFFI" +:+ "F" +:+ digit +:+ ".bmp" ∧
    os_path_dirname (enemy_src_path "OFFI" "F")
    = "/tmp/wolf3d-assets/w3d_enemies_fix" ∧
    enemy_dst_file "F" = small +:+ ".png" ∧
    enemy_out_dir "/repo/scripts" "officer"
    = DST "/repo/scripts" +:+ "/enemies/" +:+ "officer" ∧
    enemy_dst_path (enemy_out_dir "/repo/scripts" "officer") "F"
    = DST "/repo/scripts" +:+ "/enemies/" +:+ "officer" +:+ "/"
      +:+ small +:+ ".png" ∧
    os_path_dirname
      (enemy_dst_path (enemy_out_dir "/repo/scripts" "officer") "F")
    = enemy_out_dir "/repo/scripts" "officer".
Proof.
  apply (enemy_file_names "/repo/scripts" "OFFI" "officer"
           (list_of_str "ABCDEFGHIJKLMNO") "F");
    vm_compute; set_solver.
Defined.


(** ** Runs of the converter *)

Section run_facts.

Implicit Types (w : world) (t : list event) (p d : string).

Lemma bind_Done_inv {A B} (m : M A) (f : A → M B) w b w' :
  (m ≫= f) w = Done b w' →
  ∃ a w1, m w = Done a w1 ∧ f a w1 = Done b w'.
Proof.
  unfold mbind, M_bind. destruct (m w) as [a w1|e w1]; [|done].
  intros H. by exists a, w1.
Qed.

Lemma bind_Done {A B} (m : M A) (f : A → M B) w a w1 :
  m w = Done a w1 → (m ≫= f) w = f a w1.
Proof. unfold mbind, M_bind. by intros ->. Qed.

Lemma mret_Done_inv {A} (a b : A) w w' :
  mret (M := M) a w = Done b w' → a = b ∧ w = w'.
Proof. by intros [= -> ->]. Qed.

Lemma run_refl w : run w w [].
Proof. split; [by rewrite app_nil_r|]. split; [done|]. by intros d ?%elem_of_nil. Qed.

Lemma run_trans w w1 w2 t1 t2 :
  run w w1 t1 → run w1 w2 t2 → run w w2 (t1 ++ t2).
Proof.
  intros (Ht1 & Hk1 & Hd1) (Ht2 & Hk2 & Hd2).
  split; [by rewrite Ht2, Ht1, app_assoc|].
  split; [by auto|].
  intros d [Hd|Hd]%elem_of_app; auto.
Qed.

Lemma print_run s w b w' :
  print s w = Done b w' → run w w' [EPrint s].
Proof.
  intros [= _ <-]. split; [done|]. split; [done|].
  intros d Hd. apply list_elem_of_singleton in Hd. done.
Qed.

Lemma lookup_mkdirs ds (m : gmap string node) p :
  mkdirs ds m !! p = if decide (p ∈ ds) then Some Dir else m !! p.
Proof.
  induction ds as [|d ds IH].
  - case_decide as Hin; [by apply elem_of_nil in Hin | done].
  - change (mkdirs (d :: ds) m) with (<[d := Dir]> (mkdirs ds m)).
    destruct (decide (d = p)) as [->|Hne].
    + rewrite lookup_insert_eq.
      by rewrite decide_True by apply list_elem_of_here.
    + rewrite lookup_insert_ne, IH by done.
      destruct (decide (p ∈ ds)) as [Hin|Hnotin].
      * by rewrite decide_True by (by apply list_elem_of_further).
      * rewrite decide_False; [done|].
        intros [->|?]%elem_of_cons; done.
Qed.

(** Where no regular file is in the way, [os.makedirs] goes through; it
    goes through only there. *)
Lemma os_makedirs_Done p w :
  existsb (λ a, is_regular (fs w !! a)) (ancestors p) = false →
  is_regular (fs w !! p) = false →
  os_makedirs p w
  = Done () (emit (EMakedirs p)
               {| fs := mkdirs (p :: ancestors p) (fs w);
                  trace := trace w |}).
Proof. intros Ha Hp. unfold os_makedirs. by rewrite Ha, Hp. Qed.

Lemma os_makedirs_Done_inv p w b w' :
  os_makedirs p w = Done b w' →
  existsb (λ a, is_regular (fs w !! a)) (ancestors p) = false ∧
  is_regular (fs w !! p) = false ∧
  w' = emit (EMakedirs p)
         {| fs := mkdirs (p :: ancestors p) (fs w); trace := trace w |}.
Proof.
  unfold os_makedirs.
  destruct (existsb _ _); [done|]. destruct (is_regular _); [done|].
  by intros [= _ <-].
Qed.

Lemma os_makedirs_run p w b w' :
  os_makedirs p w = Done b w' → run w w' [EMakedirs p].
Proof.
  intros (_ & _ & ->)%os_makedirs_Done_inv.
  split; [done|]. simpl. split.
  - intros q Hq. rewrite lookup_mkdirs. by case_decide.
  - intros d Hd. apply list_elem_of_singleton in Hd as [= ->].
    rewrite lookup_mkdirs. by rewrite decide_True by apply list_elem_of_here.
Qed.

Lemma Image_save_run img p w b w' :
  Image_save img p w = Done b w' →
  run w w' [ESave p] ∧ fs w' !! p = Some (File (png_of img)).
Proof.
  unfold Image_save. intros H.
  assert (fs w !! p ≠ Some Dir ∧
          w' = emit (ESave p)
                 {| fs := <[p := File (png_of img)]> (fs w);
                    trace := trace w |}) as [Hp ->].
  { destruct (fs w !! p) as [[|c]|]; by simplify_eq. }
  simpl. split; [|by rewrite lookup_insert_eq].
  split; [done|]. simpl. split.
  - intros q Hq. destruct (decide (p = q)) as [->|Hne]; [done|].
    by rewrite lookup_insert_ne.
  - intros d Hd. apply list_elem_of_singleton in Hd. done.
Qed.

Lemma Image_open_fs p w s w' : Image_open p w = Done s w' → w' = w.
Proof.
  unfold Image_open. destruct (fs w !! p) as [[|[|s']]|]; by intros [= _ <-].
Qed.

Lemma lift_result_fs {A} (r : result A) w a w' :
  lift_result r w = Done a w' → w' = w.
Proof. unfold lift_result. destruct r; by intros [= _ <-]. Qed.

Lemma os_path_exists_fs p w b w' : os_path_exists p w = Done b w' → w' = w.
Proof. by intros [= _ <-]. Qed.

Lemma count_saves_app t1 t2 :
  count_saves (t1 ++ t2) = count_saves t1 + count_saves t2.
Proof. unfold count_saves. by rewrite filter_app, length_app. Qed.

Lemma saves_within_app d t1 t2 :
  saves_within d t1 → saves_within d t2 → saves_within d (t1 ++ t2).
Proof. intros H1 H2 p [?|?]%elem_of_app; auto. Qed.

Lemma saves_within_nil d : saves_within d [].
Proof. by intros p ?%elem_of_nil. Qed.

Lemma saves_within_print d s : saves_within d [EPrint s].
Proof. intros p Hp. by apply list_elem_of_singleton in Hp. Qed.

(** A file name joined onto a directory name lies directly in it. *)
Lemma os_path_dirname_join_step d f :
  is_empty d = false → endswith_sep d = false → has_sep f = false →
  os_path_dirname (join_step d f) = d.
Proof.
  intros Hd He Hf.
  rewrite join_step_plain by (done || by apply has_sep_startswith).
  by apply os_path_dirname_join.
Qed.

Lemma saves_within_save d f :
  is_empty d = false → endswith_sep d = false → has_sep f = false →
  saves_within d [ESave (os_path_join d [f])].
Proof.
  intros Hd He Hf p Hp. apply list_elem_of_singleton in Hp as [= ->].
  exists f. split; [done|]. by apply os_path_dirname_join_step.
Qed.

End run_facts.

(** Take a monadic computation that finished apart, one bind at a time:
    [H : (m ≫= f) w = Done b w'] becomes [H1 : m w = Done a w1] and
    [H : f a w1 = Done b w']. *)
Tactic Notation "minv" hyp(H) "as" simple_intropattern(a)
    simple_intropattern(w1) ident(H1) :=
  apply bind_Done_inv in H as (a & w1 & H1 & H).

Section converter_facts.

Context (script_dir : string).
Implicit Types (w : world) (t : list event) (p d : string).

Lemma dirs_precede_saves_app t1 t2 :
  dirs_precede_saves t1 → dirs_precede_saves t2 →
  dirs_precede_saves (t1 ++ t2).
Proof.
  intros H1 H2 u1 p u2 Heq.
  apply app_eq_inv in Heq as [(k & -> & Hk)|(k & -> & ->)].
  - destruct k as [|e k]; simpl in Hk.
    + specialize (H2 [] p u2 (eq_sym Hk)). by apply elem_of_nil in H2.
    + injection Hk as <- ->. by apply (H1 u1 p k).
  - apply elem_of_app. right. by apply (H2 k p u2).
Qed.

Lemma dirs_precede_saves_none t :
  count_saves t = 0 → dirs_precede_saves t.
Proof.
  intros Hnone u1 p u2 ->. rewrite count_saves_app in Hnone.
  unfold count_saves in Hnone.
  rewrite filter_cons_True in Hnone by done. simpl in Hnone. lia.
Qed.

Lemma dirs_precede_saves_within d t :
  saves_within d t → dirs_precede_saves (EMakedirs d :: t).
Proof.
  intros Hin u1 p u2 Heq.
  destruct u1 as [|e u1]; simpl in Heq; [done|].
  injection Heq as <- ->.
  destruct (Hin p) as (f & _ & ->).
  { apply elem_of_app. right. apply list_elem_of_here. }
  apply list_elem_of_here.
Qed.

Lemma walls_dir_is_dir_name :
  is_empty (walls_dir script_dir) = false ∧
  endswith_sep (walls_dir script_dir) = false.
Proof. by apply join_step_is_dir_name. Qed.

Lemma convert_wall_run src_file dst_file w ok w' :
  has_sep dst_file = false →
  convert_wall script_dir src_file dst_file w = Done ok w' →
  ∃ t, run w w' t ∧ count_saves t = (if ok then 1 else 0) ∧
       saves_within (walls_dir script_dir) t.
Proof.
  intros Hname. destruct walls_dir_is_dir_name as [Hne Hns].
  unfold convert_wall. intros H. minv H as found w1 Hfound.
  apply os_path_exists_fs in Hfound as ->.
  destruct (negb found).
  - minv H as [] w2 Hprint. apply mret_Done_inv in H as [<- <-].
    exists [EPrint ("  SKIP (not found): " +:+ wall_src_path src_file)].
    split; [by eapply print_run|]. split; [done|].
    apply saves_within_print.
  - minv H as src w2 Hopen. apply Image_open_fs in Hopen as ->.
    minv H as [] w3 Hsave. apply Image_save_run in Hsave as [Hsave _].
    minv H as [] w4 Hprint. apply print_run in Hprint.
    apply mret_Done_inv in H as [<- <-].
    eexists. split; [by eapply run_trans|]. split; [done|].
    apply saves_within_app; [|apply saves_within_print].
    by apply (saves_within_save (walls_dir script_dir) dst_file).
Qed.

Lemma convert_enemy_run src_path out_dir frame w ok w' :
  is_empty out_dir = false → endswith_sep out_dir = false →
  has_sep (enemy_dst_file frame) = false →
  convert_enemy src_path (enemy_dst_path out_dir frame) w = Done ok w' →
  ∃ t, run w w' t ∧ count_saves t = (if ok then 1 else 0) ∧
       saves_within out_dir t.
Proof.
  intros Hne Hns Hname.
  unfold convert_enemy. intros H. minv H as found w1 Hfound.
  apply os_path_exists_fs in Hfound as ->.
  destruct (negb found).
  - minv H as [] w2 Hprint. apply mret_Done_inv in H as [<- <-].
    exists [EPrint ("  SKIP (not found): " +:+ src_path)].
    split; [by eapply print_run|]. split; [done|].
    apply saves_within_print.
  - minv H as src w2 Hopen. apply Image_open_fs in Hopen as ->.
    minv H as img w3 Hkey. apply lift_result_fs in Hkey as ->.
    minv H as [] w4 Hsave. apply Image_save_run in Hsave as [Hsave _].
    apply mret_Done_inv in H as [<- <-].
    eexists. split; [done|]. split; [done|].
    by apply (saves_within_save out_dir (enemy_dst_file frame)).
Qed.

Lemma wall_loop_run items wall_count w n w' :
  items ⊆ WALL_MAP →
  wall_loop script_dir items wall_count w = Done n w' →
  ∃ t, run w w' t ∧ n = wall_count + count_saves t ∧
       n ≤ wall_count + length items ∧
       saves_within (walls_dir script_dir) t.
Proof.
  revert wall_count w.
  induction items as [|[src_file dst_file] items IH];
    intros wall_count w Hsub H.
  - apply mret_Done_inv in H as [<- <-].
    exists []. split; [apply run_refl|]. unfold count_saves; simpl.
    split; [lia|]. split; [lia|]. apply saves_within_nil.
  - assert (Hin : (src_file, dst_file) ∈ WALL_MAP)
      by apply Hsub, list_elem_of_here.
    assert (Hrest : items ⊆ WALL_MAP).
    { intros e He. apply Hsub. by apply list_elem_of_further. }
    apply WALL_MAP_names in Hin as [_ Hname].
    unfold wall_loop in H; simpl in H.
    minv H as count w1 Hbody. minv Hbody as ok w2 Hconv.
    apply mret_Done_inv in Hbody as [<- <-].
    apply convert_wall_run in Hconv as (t1 & Hrun1 & Hc1 & Hin1); [|done].
    apply IH in H as (t2 & Hrun2 & Hc2 & Hle & Hin2); [|done].
    exists (t1 ++ t2). split; [by eapply run_trans|].
    rewrite count_saves_app, Hc1. simpl.
    split; [destruct ok; lia|]. split; [destruct ok; lia|].
    by apply saves_within_app.
Qed.

Lemma frame_loop_run prefix out_dir frames enemy_count w n w' :
  is_empty out_dir = false → endswith_sep out_dir = false →
  Forall (λ frame, has_sep (enemy_dst_file frame) = false) frames →
  frame_loop prefix out_dir frames enemy_count w = Done n w' →
  ∃ t, run w w' t ∧ n = enemy_count + count_saves t ∧
       n ≤ enemy_count + length frames ∧
       saves_within out_dir t.
Proof.
  intros Hne Hns. revert enemy_count w.
  induction frames as [|frame frames IH]; intros enemy_count w Hnames H.
  - apply mret_Done_inv in H as [<- <-].
    exists []. split; [apply run_refl|]. unfold count_saves; simpl.
    split; [lia|]. split; [lia|]. apply saves_within_nil.
  - apply Forall_cons in Hnames as [Hname Hnames].
    unfold frame_loop in H; simpl in H.
    minv H as count w1 Hbody. minv Hbody as ok w2 Hconv.
    apply mret_Done_inv in Hbody as [<- <-].
    apply convert_enemy_run in Hconv as (t1 & Hrun1 & Hc1 & Hin1);
      [|done..].
    apply IH in H as (t2 & Hrun2 & Hc2 & Hle & Hin2); [|done].
    exists (t1 ++ t2). split; [by eapply run_trans|].
    rewrite count_saves_app, Hc1. simpl.
    split; [destruct ok; lia|]. split; [destruct ok; lia|].
    by apply saves_within_app.
Qed.

End converter_facts.

Section batch_facts.

Context (script_dir : string).
Implicit Types (w : world) (t : list event) (p d : string).
Implicit Types (enemies : list (string * string * list string)).

Lemma saves_among_app ds t1 t2 :
  saves_among ds t1 → saves_among ds t2 → saves_among ds (t1 ++ t2).
Proof. intros H1 H2 p [?|?]%elem_of_app; auto. Qed.

Lemma saves_among_mono ds ds' t :
  ds ⊆ ds' → saves_among ds t → saves_among ds' t.
Proof.
  intros Hsub H p Hp. destruct (H p Hp) as (d & f & Hd & -> & Hdir).
  exists d, f. split; [by apply Hsub | done].
Qed.

Lemma saves_within_among d t : saves_within d t → saves_among [d] t.
Proof.
  intros H p Hp. destruct (H p Hp) as (f & -> & Hdir).
  exists d, f. split; [apply list_elem_of_here | done].
Qed.

Lemma saves_among_none ds t : count_saves t = 0 → saves_among ds t.
Proof.
  intros Hnone p Hp. apply list_elem_of_split in Hp as (t1 & t2 & ->).
  rewrite count_saves_app in Hnone. unfold count_saves in Hnone.
  rewrite filter_cons_True in Hnone by done. simpl in Hnone. lia.
Qed.

Lemma frame_total_cons e enemies :
  frame_total (e :: enemies) = length e.2 + frame_total enemies.
Proof. reflexivity. Qed.

Lemma enemy_loop_run enemies enemy_count w n w' :
  enemies ⊆ ENEMIES →
  enemy_loop script_dir enemies enemy_count w = Done n w' →
  ∃ t, run w w' t ∧ n = enemy_count + count_saves t ∧
       n ≤ enemy_count + frame_total enemies ∧
       dirs_precede_saves t ∧
       saves_among (enemy_dirs script_dir enemies) t ∧
       ∀ d, d ∈ enemy_dirs script_dir enemies → EMakedirs d ∈ t.
Proof.
  revert enemy_count w.
  induction enemies as [|[[prefix dirname] frames] enemies IH];
    intros enemy_count w Hsub H.
  - apply mret_Done_inv in H as [<- <-].
    exists []. split; [apply run_refl|]. unfold count_saves; simpl.
    split; [lia|]. split; [unfold frame_total; simpl; lia|].
    split; [by apply dirs_precede_saves_none|].
    split; [by apply saves_among_none|].
    by intros d ?%elem_of_nil.
  - assert (Hcat : (prefix, dirname, frames) ∈ ENEMIES)
      by apply Hsub, list_elem_of_here.
    assert (Hrest : enemies ⊆ ENEMIES).
    { intros e He. apply Hsub. by apply list_elem_of_further. }
    destruct (ENEMIES_dirnames _ _ _ Hcat) as (Hd1 & Hd2 & Hd3 & _).
    destruct (enemy_out_dir_is_dir_name script_dir dirname) as [Hne Hns];
      [done..|].
    assert (Hnames : Forall (λ frame, has_sep (enemy_dst_file frame) = false)
                       frames).
    { apply Forall_forall. intros frame Hframe.
      by destruct (ENEMIES_plain_names _ _ _ _ Hcat Hframe) as (_ & ? & _). }
    unfold enemy_loop in H; simpl in H.
    minv H as count w1 Hbody.
    minv Hbody as [] w2 Hmk. apply os_makedirs_run in Hmk.
    minv Hbody as count' w3 Hframes.
    apply frame_loop_run in Hframes as (tf & Hrunf & Hcf & Hlef & Hinf);
      [|done..].
    minv Hbody as [] w4 Hpr. apply print_run in Hpr.
    apply mret_Done_inv in Hbody as [<- <-].
    apply IH in H as (t2 & Hrun2 & Hc2 & Hle2 & Hdps2 & Ham2 & Hmk2);
      [|done].
    set (d := enemy_out_dir script_dir dirname) in *.
    set (line := EPrint _) in Hpr.
    exists ((EMakedirs d :: tf ++ [line]) ++ t2).
    split.
    { eapply run_trans; [|done].
      change (EMakedirs d :: tf ++ [line])
        with ([EMakedirs d] ++ tf ++ [line]).
      eapply run_trans; [done|]. by eapply run_trans. }
    assert (Hcount : count_saves (EMakedirs d :: tf ++ [line])
                     = count_saves tf).
    { change (EMakedirs d :: tf ++ [line])
        with ([EMakedirs d] ++ tf ++ [line]).
      rewrite !count_saves_app. unfold count_saves at 1 3; simpl. lia. }
    rewrite count_saves_app, Hcount.
    split; [lia|].
    split; [rewrite frame_total_cons; simpl; lia|].
    split.
    { apply dirs_precede_saves_app; [|done].
      apply dirs_precede_saves_within.
      apply saves_within_app; [done | apply saves_within_print]. }
    split.
    { apply saves_among_app.
      - apply (saves_among_mono [d]).
        { intros x ->%list_elem_of_singleton. apply list_elem_of_here. }
        apply saves_within_among.
        intros p [Hp|Hp]%elem_of_cons; [done|].
        revert p Hp. apply saves_within_app; [done | apply saves_within_print].
      - eapply saves_among_mono; [|done].
        intros x Hx. by apply list_elem_of_further. }
    intros d' [->|Hd']%elem_of_cons.
    + apply elem_of_app. left. apply list_elem_of_here.
    + apply elem_of_app. right. by apply Hmk2.
Qed.

Lemma convert_walls_run w n w' :
  convert_walls script_dir w = Done n w' →
  ∃ t, run w w' t ∧ n = count_saves t ∧ n ≤ length WALL_MAP ∧
       dirs_precede_saves t ∧
       saves_among [walls_dir script_dir] t ∧
       EMakedirs (walls_dir script_dir) ∈ t.
Proof.
  unfold convert_walls. intros H.
  minv H as [] w1 Hpr1. apply print_run in Hpr1.
  minv H as [] w2 Hmk. apply os_makedirs_run in Hmk.
  minv H as count w3 Hloop.
  apply wall_loop_run in Hloop as (tl & Hrunl & Hcl & Hlel & Hinl); [|done].
  minv H as [] w4 Hpr2. apply print_run in Hpr2.
  apply mret_Done_inv in H as [<- <-].
  set (d := walls_dir script_dir) in *.
  set (line1 := EPrint _) in Hpr1. set (line2 := EPrint _) in Hpr2.
  exists ([line1] ++ [EMakedirs d] ++ tl ++ [line2]).
  split; [by repeat (eapply run_trans; [done|])|].
  split.
  { rewrite !count_saves_app. unfold count_saves at 1 2 4; simpl. lia. }
  split; [simpl in *; lia|].
  assert (Hin : saves_within d (tl ++ [line2]))
    by (apply saves_within_app; [done | apply saves_within_print]).
  split.
  { apply dirs_precede_saves_app; [by apply dirs_precede_saves_none|].
    by apply dirs_precede_saves_within. }
  split.
  { apply saves_within_among. apply saves_within_app.
    - apply saves_within_print.
    - intros p [Hp|Hp]%elem_of_cons; [done | by apply Hin]. }
  apply list_elem_of_further, list_elem_of_here.
Qed.

Lemma convert_enemies_run w n w' :
  convert_enemies script_dir w = Done n w' →
  ∃ t, run w w' t ∧ n = count_saves t ∧ n ≤ frame_total ENEMIES ∧
       dirs_precede_saves t ∧
       saves_among (enemy_dirs script_dir ENEMIES) t ∧
       ∀ d, d ∈ enemy_dirs script_dir ENEMIES → EMakedirs d ∈ t.
Proof.
  unfold convert_enemies. intros H.
  minv H as [] w1 Hpr1. apply print_run in Hpr1.
  minv H as count w2 Hloop.
  apply enemy_loop_run
    in Hloop as (tl & Hrunl & Hcl & Hlel & Hdps & Ham & Hmk); [|done].
  minv H as [] w3 Hpr2. apply print_run in Hpr2.
  apply mret_Done_inv in H as [<- <-].
  set (line1 := EPrint _) in Hpr1. set (line2 := EPrint _) in Hpr2.
  exists ([line1] ++ tl ++ [line2]).
  split; [by repeat (eapply run_trans; [done|])|].
  split.
  { rewrite !count_saves_app. unfold count_saves at 1 3; simpl. lia. }
  split; [lia|].
  split.
  { apply dirs_precede_saves_app; [by apply dirs_precede_saves_none|].
    apply dirs_precede_saves_app; [done|by apply dirs_precede_saves_none]. }
  split.
  { apply saves_among_app; [by apply saves_among_none|].
    apply saves_among_app; [done | by apply saves_among_none]. }
  intros d Hd. apply list_elem_of_further, elem_of_app. left. by apply Hmk.
Qed.

(** What every run of [main] that finishes has done: the trace grows by a
    wall part and an enemy part. *)
Lemma main_run w wall_count enemy_count w' :
  main script_dir w = Done (wall_count, enemy_count) w' →
  ∃ tw te,
    run w w' (tw ++ te) ∧
    wall_count = count_saves tw ∧ wall_count ≤ length WALL_MAP ∧
    saves_among [walls_dir script_dir] tw ∧
    enemy_count = count_saves te ∧ enemy_count ≤ frame_total ENEMIES ∧
    saves_among (enemy_dirs script_dir ENEMIES) te ∧
    dirs_precede_saves (tw ++ te) ∧
    (∀ d, d ∈ output_dirs script_dir → EMakedirs d ∈ tw ++ te) ∧
    last te = Some (EPrint (done_line wall_count enemy_count)).
Proof.
  unfold main. intros H.
  minv H as [] w1 Hpr1. apply print_run in Hpr1.
  minv H as wc w2 Hwalls.
  apply convert_walls_run
    in Hwalls as (tw & Hrunw & Hcw & Hlew & Hdpsw & Hamw & Hmkw).
  minv H as ec w3 Henemies.
  apply convert_enemies_run
    in Henemies as (te & Hrune & Hce & Hlee & Hdpse & Hame & Hmke).
  minv H as [] w4 Hpr2. apply print_run in Hpr2.
  apply mret_Done_inv in H as [[= <- <-] <-].
  set (line1 := EPrint _) in Hpr1.
  exists ([line1] ++ tw), (te ++ [EPrint (done_line wc ec)]).
  split.
  { rewrite <- !app_assoc. by repeat (eapply run_trans; [done|]). }
  split.
  { rewrite count_saves_app. unfold count_saves at 1; simpl. lia. }
  split; [done|].
  split; [apply saves_among_app; [by apply saves_among_none | done]|].
  split.
  { rewrite count_saves_app. unfold count_saves at 2; simpl. lia. }
  split; [done|].
  split; [apply saves_among_app; [done | by apply saves_among_none]|].
  split.
  { apply dirs_precede_saves_app.
    - apply dirs_precede_saves_app; [by apply dirs_precede_saves_none|done].
    - apply dirs_precede_saves_app; [done|by apply dirs_precede_saves_none]. }
  split; [|by rewrite last_snoc].
  intros d [->|Hd]%elem_of_cons.
  - apply elem_of_app. left. by apply list_elem_of_further.
  - apply elem_of_app. right. apply elem_of_app. left. by apply Hmke.
Qed.

End batch_facts.

(** ** The claims about the batch *)

(** C5. A wall whose source file is present and decodes is written to its
    destination (unless a directory sits there) as a picture of the
    source's pixel dimensions; when the source has no alpha channel the
    written picture keeps every colour and has alpha 255 at every pixel.
    This holds for any pair of names, in particular the ten of
    [WALL_MAP]. *)
Theorem wall_conversion_output script_dir w src_file dst_file s :
  fs w !! wall_src_path src_file = Some (File (Picture s)) →
  fs w !! wall_dst_path script_dir dst_file ≠ Some Dir →
  ∃ w' written,
    convert_wall script_dir src_file dst_file w = Done true w' ∧
    fs w' !! wall_dst_path script_dir dst_file
    = Some (File (Picture written)) ∧
    src_size written = src_size s ∧
    ∀ px, src_pixels s = NoAlpha px →
      ∃ out, src_pixels written = HasAlpha out ∧
             rgb_of <$> out = px ∧
             Forall (λ p, alpha_of p = 255%Z) out.
Proof.
  intros Hsrc Hdst.
  set (img := convert_RGBA s).
  set (w1 := {| fs := <[wall_dst_path script_dir dst_file
                        := File (png_of img)]> (fs w);
                trace := trace w |}).
  exists (emit (EPrint ("  OK " +:+ src_file +:+ " -> " +:+ dst_file))
            (emit (ESave (wall_dst_path script_dir dst_file)) w1)).
  exists {| src_size := size img; src_pixels := HasAlpha (data img) |}.
  split.
  { unfold convert_wall, mbind, M_bind, os_path_exists, Image_open,
      Image_save, print.
    rewrite Hsrc. rewrite bool_decide_true by (by eexists). simpl.
    rewrite Hsrc.
    destruct (fs w !! wall_dst_path script_dir dst_file) as [[|c]|];
      done. }
  split; [simpl; by rewrite lookup_insert_eq|].
  split; [done|].
  intros px Hpx. eexists. split; [done|].
  unfold img, convert_RGBA; simpl. rewrite Hpx. split.
  - rewrite <- list_fmap_compose. rewrite <- (list_fmap_id px) at 2.
    apply list_fmap_ext. by intros i [[r g] b] _.
  - apply Forall_fmap, Forall_forall. by intros [[r g] b] _.
Qed.

Lemma wall_conversion_output_witness :
  ∃ w' written,
    convert_wall "/repo/scripts" "greybrick1.bmp" "wall_0.png" sample_world
    = Done true w' ∧
    fs w' !! wall_dst_path "/repo/scripts" "wall_0.png"
    = Some (File (Picture written)) ∧
    src_size written = src_size sample_source ∧
    ∀ px, src_pixels sample_source = NoAlpha px →
      ∃ out, src_pixels written = HasAlpha out ∧
             rgb_of <$> out = px ∧
             Forall (λ p, alpha_of p = 255%Z) out.
Proof.
  apply (wall_conversion_output "/repo/scripts" sample_world
           "greybrick1.bmp" "wall_0.png" sample_source);
    by vm_compute.
Defined.

(** C8. In every run that finishes, the reported wall count is at most 10
    (the number of entries of [WALL_MAP]) and the reported enemy count at
    most 59 (the frames of the four categories, 14 + 15 + 14 + 16); the
    trace of the run splits into a wall part and an enemy part, and each
    counter equals the number of files written in its part, one per
    converted item; the last line printed reports the two counters. *)
Theorem counter_bounds script_dir w wall_count enemy_count w' :
  main script_dir w = Done (wall_count, enemy_count) w' →
  wall_count ≤ 10 ∧ enemy_count ≤ 59 ∧
  length WALL_MAP = 10 ∧
  (λ e, length e.2) <$> ENEMIES = [14; 15; 14; 16] ∧
  ∃ tw te,
    trace w' = trace w ++ tw ++ te ∧
    wall_count = count_saves tw ∧
    saves_among [walls_dir script_dir] tw ∧
    enemy_count = count_saves te ∧
    saves_among (enemy_dirs script_dir ENEMIES) te ∧
    last te = Some (EPrint (done_line wall_count enemy_count)).
Proof.
  intros H.
  apply main_run in H
    as (tw & te & (Htr & _) & Hcw & Hlew & Hamw & Hce & Hlee & Hame & _ & _
        & Hlast).
  split; [exact Hlew|]. split; [exact Hlee|].
  split; [done|]. split; [done|].
  by exists tw, te.
Qed.

Lemma counter_bounds_witness :
  1 ≤ 10 ∧ 1 ≤ 59 ∧
  length WALL_MAP = 10 ∧
  (λ e, length e.2) <$> ENEMIES = [14; 15; 14; 16] ∧
  ∃ tw te,
    trace (final_world (main "/repo/scripts") sample_world)
    = trace sample_world ++ tw ++ te ∧
    1 = count_saves tw ∧
    saves_among [walls_dir "/repo/scripts"] tw ∧
    1 = count_saves te ∧
    saves_among (enemy_dirs "/repo/scripts" ENEMIES) te ∧
    last te = Some (EPrint (done_line 1 1)).
Proof.
  apply (counter_bounds "/repo/scripts" sample_world 1 1
           (final_world (main "/repo/scripts") sample_world)).
  apply returned_final. by vm_compute.
Defined.

Lemma os_path_exists_None p w :
  fs w !! p = None → os_path_exists p w = Done false w.
Proof.
  intros H. unfold os_path_exists. rewrite H.
  by rewrite bool_decide_false by (by intros [? ?]).
Qed.

Lemma convert_wall_missing script_dir src_file dst_file w :
  fs w !! wall_src_path src_file = None →
  convert_wall script_dir src_file dst_file w
  = Done false (skipped (wall_src_path src_file) w).
Proof.
  intros H. unfold convert_wall.
  by rewrite (bind_Done _ _ _ _ _ (os_path_exists_None _ _ H)).
Qed.

Lemma convert_enemy_missing src_path dst_path w :
  fs w !! src_path = None →
  convert_enemy src_path dst_path w = Done false (skipped src_path w).
Proof.
  intros H. unfold convert_enemy.
  by rewrite (bind_Done _ _ _ _ _ (os_path_exists_None _ _ H)).
Qed.

(** C4. A wall entry or an enemy frame whose source path does not exist
    is skipped: the converter returns [False] having printed the skip
    notice and nothing else, so no file is created and the file system is
    as before; the loop goes on to the next item with its counter
    unchanged. *)
Theorem missing_source_skipped script_dir w :
  (∀ src_file dst_file rest wall_count,
     fs w !! wall_src_path src_file = None →
     convert_wall script_dir src_file dst_file w
     = Done false (skipped (wall_src_path src_file) w) ∧
     fs (skipped (wall_src_path src_file) w) = fs w ∧
     wall_loop script_dir ((src_file, dst_file) :: rest) wall_count w
     = wall_loop script_dir rest wall_count
         (skipped (wall_src_path src_file) w)) ∧
  (∀ prefix out_dir frame rest enemy_count,
     fs w !! enemy_src_path prefix frame = None →
     convert_enemy (enemy_src_path prefix frame)
       (enemy_dst_path out_dir frame) w
     = Done false (skipped (enemy_src_path prefix frame) w) ∧
     fs (skipped (enemy_src_path prefix frame) w) = fs w ∧
     frame_loop prefix out_dir (frame :: rest) enemy_count w
     = frame_loop prefix out_dir rest enemy_count
         (skipped (enemy_src_path prefix frame) w)).
Proof.
  split.
  - intros src_file dst_file rest wall_count H.
    pose proof (convert_wall_missing script_dir src_file dst_file w H) as Hc.
    split; [done|]. split; [done|].
    unfold wall_loop; simpl.
    apply bind_Done. by rewrite (bind_Done _ _ _ _ _ Hc).
  - intros prefix out_dir frame rest enemy_count H.
    pose proof (convert_enemy_missing _ (enemy_dst_path out_dir frame) w H)
      as Hc.
    split; [done|]. split; [done|].
    unfold frame_loop; simpl.
    apply bind_Done. by rewrite (bind_Done _ _ _ _ _ Hc).
Qed.

Lemma missing_source_skipped_witness :
  (convert_wall "/repo/scripts" "wood1.BMP" "wall_2.png" sample_world
   = Done false (skipped (wall_src_path "wood1.BMP") sample_world) ∧
   fs (skipped (wall_src_path "wood1.BMP") sample_world) = fs sample_world ∧
   wall_loop "/repo/scripts" [("wood1.BMP", "wall_2.png");
                              ("stone1.BMP", "wall_3.png")] 1 sample_world
   = wall_loop "/repo/scripts" [("stone1.BMP", "wall_3.png")] 1
       (skipped (wall_src_path "wood1.BMP") sample_world)) ∧
  (convert_enemy (enemy_src_path "GARD" "B")
     (enemy_dst_path (enemy_out_dir "/repo/scripts" "guard") "B")
     sample_world
   = Done false (skipped (enemy_src_path "GARD" "B") sample_world) ∧
   fs (skipped (enemy_src_path "GARD" "B") sample_world) = fs sample_world ∧
   frame_loop "GARD" (enemy_out_dir "/repo/scripts" "guard") ["B"; "C"] 1
     sample_world
   = frame_loop "GARD" (enemy_out_dir "/repo/scripts" "guard") ["C"] 1
       (skipped (enemy_src_path "GARD" "B") sample_world)).
Proof.
  destruct (missing_source_skipped "/repo/scripts" sample_world)
    as [Hwall Henemy].
  split.
  - apply Hwall. by vm_compute.
  - apply Henemy. by vm_compute.
Defined.

(** ** A batch with every source missing *)

Section all_missing.

Context (script_dir : string).
Implicit Types (w : world) (p d : string).

Lemma last_ascii_app a b :
  is_empty b = false → last_ascii (a +:+ b) = last_ascii b.
Proof.
  intros Hb. induction a as [|c a IH]; [done|].
  rewrite str_app_cons; simpl. rewrite IH.
  destruct (a +:+ b) eqn:E; [|done].
  assert (Hab : is_empty (a +:+ b) = true) by (by rewrite E).
  by rewrite is_empty_app, Hb, andb_false_r in Hab.
Qed.

Lemma source_path_last p :
  p ∈ source_paths → last_ascii p = Some "p"%char ∨ last_ascii p = Some "P"%char.
Proof.
  intros Hp. unfold source_paths, WALL_MAP, ENEMIES in Hp. simpl in Hp.
  in_table Hp; subst p; vm_compute; auto.
Qed.

Lemma output_dir_last d :
  d ∈ output_dirs script_dir →
  last_ascii d ∈ [Some "s"; Some "d"; Some "r"; Some "t"]%char.
Proof.
  intros Hd. unfold output_dirs, enemy_dirs, ENEMIES in Hd; simpl in Hd.
  apply elem_of_cons in Hd as [->|Hd].
  - unfold walls_dir, os_path_join; simpl.
    rewrite join_DST, last_ascii_app by done. vm_compute. set_solver.
  - in_table Hd; subst d; rewrite enemy_out_dir_eq by done;
      rewrite <- str_app_assoc, last_ascii_app by done;
      vm_compute; set_solver.
Qed.

Lemma output_dir_not_source d p :
  d ∈ output_dirs script_dir → p ∈ source_paths → d ≠ p.
Proof.
  intros Hd Hp ->. apply output_dir_last in Hd.
  destruct (source_path_last p Hp) as [E|E]; rewrite E in Hd;
    in_table Hd; done.
Qed.



Lemma made_dirs_above d a :
  d ∈ output_dirs script_dir → a ∈ d :: ancestors d →
  a ∈ made_dirs script_dir.
Proof.
  intros Hd Ha. unfold made_dirs. apply list_elem_of_bind. by exists d.
Qed.

Lemma existsb_is_regular (m : gmap string node) (ds : list string) :
  (∀ d c, d ∈ ds → m !! d ≠ Some (File c)) →
  existsb (λ a, is_regular (m !! a)) ds = false.
Proof.
  intros H. induction ds as [|d ds IH]; [done|]. simpl.
  rewrite IH by (intros d' c Hd'; by apply H, list_elem_of_further).
  pose proof (λ c, H d c (list_elem_of_here _ _)) as Hd.
  destruct (m !! d) as [[|c]|]; [done| |done]. by destruct (Hd c).
Qed.




Lemma enemy_source_path prefix dirname frames frame :
  (prefix, dirname, frames) ∈ ENEMIES → frame ∈ frames →
  enemy_src_path prefix frame ∈ source_paths.
Proof.
  intros Hcat Hframe. unfold source_paths.
  apply elem_of_app. right. apply list_elem_of_bind.
  exists (prefix, dirname, frames). split; [|done].
  by apply list_elem_of_fmap_2.
Qed.



End all_missing.

(** ** Directory creation *)




(** ** The outcome of a run, from the file system it starts in *)

Section keeps_facts.

Context (script_dir : string).
Implicit Types (w : world) (p q d : string).

Lemma last_ascii_join_step path b :
  is_empty b = false → last_ascii (join_step path b) = last_ascii b.
Proof.
  intros Hb. destruct (join_step_suffix path b) as [pre ->].
  by apply last_ascii_app.
Qed.

Lemma wall_dst_path_last src_file dst_file :
  (src_file, dst_file) ∈ WALL_MAP →
  last_ascii (wall_dst_path script_dir dst_file) = Some "g"%char.
Proof.
  intros Hin. unfold wall_dst_path, os_path_join; simpl.
  unfold WALL_MAP in Hin.
  in_table Hin; injection Hin as -> ->; by rewrite last_ascii_join_step.
Qed.

Lemma enemy_dst_path_last out_dir frame :
  last_ascii (enemy_dst_path out_dir frame) = Some "g"%char.
Proof.
  unfold enemy_dst_path, os_path_join, enemy_dst_file; simpl.
  rewrite last_ascii_join_step; [by rewrite last_ascii_app|].
  by rewrite is_empty_app, andb_false_r.
Qed.

Lemma dest_path_last q :
  q ∈ dest_paths script_dir → last_ascii q = Some "g"%char.
Proof.
  unfold dest_paths. intros [Hq|Hq]%elem_of_app.
  - apply list_elem_of_fmap in Hq as ([src_file dst_file] & -> & Hin).
    by eapply wall_dst_path_last.
  - apply list_elem_of_bind in Hq as (e & Hq & _).
    apply list_elem_of_fmap in Hq as (frame & -> & _).
    apply enemy_dst_path_last.
Qed.

Lemma dest_not_output_dir q :
  q ∈ dest_paths script_dir → q ∉ output_dirs script_dir.
Proof.
  intros Hq Hd. apply dest_path_last in Hq.
  apply output_dir_last in Hd. rewrite Hq in Hd. in_table Hd; done.
Qed.

Lemma source_not_dest p :
  p ∈ source_paths → p ∉ dest_paths script_dir.
Proof.
  intros Hp Hq. apply dest_path_last in Hq.
  destruct (source_path_last p Hp) as [E|E]; by rewrite E in Hq.
Qed.

Lemma source_not_output_dir p :
  p ∈ source_paths → p ∉ output_dirs script_dir.
Proof. intros Hp Hd. by apply (output_dir_not_source script_dir p p). Qed.

Lemma wall_source_path src_file dst_file :
  (src_file, dst_file) ∈ WALL_MAP → wall_src_path src_file ∈ source_paths.
Proof.
  intros Hin. unfold source_paths. apply elem_of_app. left.
  by apply (list_elem_of_fmap_2 (λ e, wall_src_path e.1) _ _ Hin).
Qed.

Lemma wall_dest_path src_file dst_file :
  (src_file, dst_file) ∈ WALL_MAP →
  wall_dst_path script_dir dst_file ∈ dest_paths script_dir.
Proof.
  intros Hin. unfold dest_paths. apply elem_of_app. left.
  by apply (list_elem_of_fmap_2 (λ e, wall_dst_path script_dir e.2) _ _ Hin).
Qed.

Lemma enemy_dest_path prefix dirname frames frame :
  (prefix, dirname, frames) ∈ ENEMIES → frame ∈ frames →
  enemy_dst_path (enemy_out_dir script_dir dirname) frame
  ∈ dest_paths script_dir.
Proof.
  intros Hcat Hframe. unfold dest_paths.
  apply elem_of_app. right. apply list_elem_of_bind.
  exists (prefix, dirname, frames). split; [|done].
  by apply list_elem_of_fmap_2.
Qed.

Lemma enemy_output_dir prefix dirname frames :
  (prefix, dirname, frames) ∈ ENEMIES →
  enemy_out_dir script_dir dirname ∈ output_dirs script_dir.
Proof.
  intros Hcat. apply list_elem_of_further.
  by apply (list_elem_of_fmap_2
              (λ e, enemy_out_dir script_dir e.1.2) _ _ Hcat).
Qed.

Lemma walls_dir_eq : walls_dir script_dir = DST script_dir +:+ "/walls".
Proof. unfold walls_dir, os_path_join; simpl. by apply join_DST. Qed.

Lemma wall_dst_path_eq dst_file :
  startswith_sep dst_file = false →
  wall_dst_path script_dir dst_file
  = DST script_dir +:+ "/walls/" +:+ dst_file.
Proof.
  intros Hd. unfold wall_dst_path, os_path_join; simpl.
  rewrite (join_DST script_dir "walls") by done.
  destruct (DST_is_dir_name script_dir) as [Hne _].
  rewrite join_step_plain; [by rewrite !str_app_assoc | | | done].
  - by rewrite is_empty_app, Hne.
  - by rewrite endswith_sep_app.
Qed.

Lemma enemy_dst_path_eq prefix dirname frames frame :
  (prefix, dirname, frames) ∈ ENEMIES → frame ∈ frames →
  enemy_dst_path (enemy_out_dir script_dir dirname) frame
  = DST script_dir
    +:+ "/enemies/" +:+ dirname +:+ "/" +:+ enemy_dst_file frame.
Proof.
  intros Hcat Hframe.
  destruct (ENEMIES_names _ _ _ _ Hcat Hframe)
    as (Hd1 & Hd2 & Hd3 & _ & Hdst & _).
  destruct (enemy_out_dir_is_dir_name script_dir dirname) as [? ?];
    [done..|].
  unfold enemy_dst_path, os_path_join; simpl.
  rewrite join_step_plain by done.
  rewrite enemy_out_dir_eq by done. by rewrite !str_app_assoc.
Qed.

(** *** The directories a run makes *)

Lemma enemies_dir_is_dir_name :
  is_empty (enemies_dir script_dir) = false ∧
  endswith_sep (enemies_dir script_dir) = false.
Proof. by apply join_step_is_dir_name. Qed.

Lemma ancestors_walls_dir :
  ancestors (walls_dir script_dir)
  = DST script_dir :: ancestors (DST script_dir).
Proof.
  destruct (DST_is_dir_name script_dir).
  unfold walls_dir, os_path_join; simpl. rewrite join_DST by done.
  by apply ancestors_join.
Qed.

Lemma ancestors_enemies_dir :
  ancestors (enemies_dir script_dir) = ancestors (walls_dir script_dir).
Proof.
  destruct (DST_is_dir_name script_dir).
  rewrite ancestors_walls_dir.
  unfold enemies_dir, os_path_join; simpl. rewrite join_DST by done.
  by apply ancestors_join.
Qed.

Lemma ancestors_enemy_out_dir prefix dirname frames :
  (prefix, dirname, frames) ∈ ENEMIES →
  ancestors (enemy_out_dir script_dir dirname)
  = enemies_dir script_dir :: ancestors (walls_dir script_dir).
Proof.
  intros (Hd1 & Hd2 & Hd3 & Hd4)%ENEMIES_dirnames.
  destruct enemies_dir_is_dir_name as [Hne Hns].
  rewrite <- ancestors_enemies_dir.
  change (enemy_out_dir script_dir dirname)
    with (join_step (enemies_dir script_dir) dirname).
  rewrite join_step_plain by done. by apply ancestors_join.
Qed.

Lemma made_dirs_cases p :
  p ∈ made_dirs script_dir →
  p ∈ output_dirs script_dir ∨ p = enemies_dir script_dir ∨
  p ∈ ancestors (walls_dir script_dir).
Proof.
  unfold made_dirs. intros (d & Hp & Hd)%list_elem_of_bind.
  apply elem_of_cons in Hp as [->|Hp]; [by left|]. right.
  apply elem_of_cons in Hd as [->|Hd]; [by right|].
  apply list_elem_of_fmap in Hd as ([[prefix dirname] frames] & -> & Hcat).
  simpl in Hp. rewrite (ancestors_enemy_out_dir _ _ _ Hcat) in Hp.
  apply elem_of_cons in Hp as [->|Hp]; auto.
Qed.

Lemma enemies_dir_last :
  last_ascii (enemies_dir script_dir) = Some "s"%char.
Proof. unfold enemies_dir, os_path_join; simpl. by rewrite last_ascii_join_step. Qed.

(** A source path among the directories to make is above the walls
    directory: it is no output directory, and not [enemies_dir]. *)
Lemma source_made p :
  p ∈ source_paths → p ∈ made_dirs script_dir →
  p ∈ ancestors (walls_dir script_dir).
Proof.
  intros Hp [Hd|[->|Ha]]%made_dirs_cases; [| |done].
  - by destruct (source_not_output_dir p).
  - destruct (source_path_last _ Hp) as [E|E];
      by rewrite enemies_dir_last in E.
Qed.

Lemma dest_path_length q :
  q ∈ dest_paths script_dir →
  String.length (walls_dir script_dir) ≤ String.length q.
Proof.
  rewrite walls_dir_eq, str_length_app.
  unfold dest_paths. intros [Hq|Hq]%elem_of_app.
  - apply list_elem_of_fmap in Hq as ([src_file dst_file] & -> & Hin).
    apply WALL_MAP_names in Hin as [_ Hname]. simpl.
    rewrite wall_dst_path_eq by (by apply has_sep_startswith).
    rewrite !str_length_app. simpl. lia.
  - apply list_elem_of_bind in Hq as ([[prefix dirname] frames] & Hq & Hcat).
    apply list_elem_of_fmap in Hq as (frame & -> & Hframe). simpl.
    rewrite (enemy_dst_path_eq _ _ _ _ Hcat Hframe).
    rewrite !str_length_app. simpl. lia.
Qed.

(** No destination is a directory that a run makes. *)
Lemma dest_not_made q :
  q ∈ dest_paths script_dir → q ∉ made_dirs script_dir.
Proof.
  intros Hq [Hd|[->|Ha]]%made_dirs_cases.
  - by apply (dest_not_output_dir q).
  - apply dest_path_last in Hq. by rewrite enemies_dir_last in Hq.
  - apply ancestors_shorter in Ha. apply dest_path_length in Hq. lia.
Qed.

Lemma existsb_false_elem {A} (f : A → bool) (l : list A) a :
  existsb f l = false → a ∈ l → f a = false.
Proof.
  induction l as [|b l IH]; [by intros _ ?%elem_of_nil|]. simpl.
  intros [Hb Hl]%orb_false_iff [->|Ha]%elem_of_cons; auto.
Qed.

Lemma existsb_agree {A} (f g : A → bool) (l : list A) :
  (∀ a, a ∈ l → f a = g a) → existsb f l = existsb g l.
Proof.
  intros H. induction l as [|b l IH]; [done|]. simpl.
  rewrite H by apply list_elem_of_here.
  by rewrite IH by (intros a Ha; by apply H, list_elem_of_further).
Qed.

Lemma dir_verdict_Ensures w d :
  dir_verdict w d = Ensures →
  ∀ a, a ∈ d :: ancestors d → is_regular (fs w !! a) = false.
Proof.
  unfold dir_verdict.
  destruct (existsb _ _) eqn:Hex; [done|].
  destruct (is_regular (fs w !! d)) eqn:Hleaf; [done|].
  intros _ a [->|Ha]%elem_of_cons; [done|].
  by apply (existsb_false_elem _ _ _ Hex).
Qed.

Lemma dir_verdict_cases w d :
  dir_verdict w d = Ensures ∨ ∃ e, dir_verdict w d = Fails e.
Proof.
  unfold dir_verdict. destruct (existsb _ _); [right; by eexists|].
  destruct (is_regular _); [right; by eexists | by left].
Qed.

(** *** Worlds that differ only where the batch writes *)

Lemma keeps_refl w : keeps script_dir w w.
Proof. split; [|split]; [done| |done]. intros p _ ?. by left. Qed.

Lemma keeps_fs w w' : fs w' = fs w → keeps script_dir w w'.
Proof.
  intros H. unfold keeps. rewrite H.
  split; [|split]; [done| |done]. intros p _ ?. by left.
Qed.

Lemma keeps_trans w w1 w2 :
  keeps script_dir w w1 → keeps script_dir w1 w2 → keeps script_dir w w2.
Proof.
  intros (Ha1 & Hn1 & Hb1) (Ha2 & Hn2 & Hb2). split; [|split].
  - intros p x Hp Hx. by apply Ha2, Ha1.
  - intros p Hp Hnone.
    destruct (Hn1 p Hp Hnone) as [Hnone1|[Hmade Hdir]].
    + by apply Hn2.
    + right. split; [done|]. by apply Ha2.
  - intros q Hq. by rewrite Hb2, Hb1.
Qed.

(** Writing a picture at a destination that is not a directory. *)
Lemma keeps_save w q c :
  q ∈ dest_paths script_dir → fs w !! q ≠ Some Dir →
  keeps script_dir w {| fs := <[q := File c]> (fs w); trace := trace w |}.
Proof.
  intros Hq Hnd. split; [|split]; simpl.
  - intros p x Hp Hx. rewrite lookup_insert_ne; [done|]. by intros ->.
  - intros p Hp Hnone. left. rewrite lookup_insert_ne; [done|]. by intros ->.
  - intros q' Hq'. destruct (decide (q = q')) as [<-|Hne].
    + rewrite lookup_insert_eq. split; [done|]. by intros ?.
    + by rewrite lookup_insert_ne.
Qed.

(** Ensuring an output directory where no regular file is in the way. *)
Lemma keeps_mkdirs w d :
  d ∈ output_dirs script_dir →
  (∀ a, a ∈ d :: ancestors d → is_regular (fs w !! a) = false) →
  keeps script_dir w
    {| fs := mkdirs (d :: ancestors d) (fs w); trace := trace w |}.
Proof.
  intros Hd Hfree. split; [|split]; simpl.
  - intros p x Hp Hx. rewrite lookup_mkdirs. case_decide as Hin; [|done].
    specialize (Hfree p Hin). rewrite Hx in Hfree. by destruct x.
  - intros p Hp Hnone. rewrite lookup_mkdirs. case_decide as Hin; [|by left].
    right. split; [by apply (made_dirs_above script_dir d) | done].
  - intros q Hq. rewrite lookup_mkdirs. rewrite decide_False; [done|].
    intros Hin. by apply (dest_not_made q Hq), (made_dirs_above script_dir d).
Qed.

Lemma keeps_regular w w' p :
  keeps script_dir w w' → p ∉ dest_paths script_dir →
  is_regular (fs w' !! p) = is_regular (fs w !! p).
Proof.
  intros (Ha & Hn & _) Hp. destruct (fs w !! p) as [x|] eqn:E.
  - by rewrite (Ha p x Hp E).
  - by destruct (Hn p Hp E) as [->|[_ ->]].
Qed.

Lemma keeps_settled w w' :
  settled script_dir w → keeps script_dir w w' → settled script_dir w'.
Proof.
  intros Hs (Ha & _ & _) a Hin. apply Ha; [|by apply Hs].
  intros Hq. apply (dest_not_made a Hq).
  apply (made_dirs_above script_dir (walls_dir script_dir));
    [apply list_elem_of_here | by apply list_elem_of_further].
Qed.

(** Once the directories above the walls directory are in place, no
    source path changes any more. *)
Lemma keeps_source w w' p :
  settled script_dir w → keeps script_dir w w' → p ∈ source_paths →
  fs w' !! p = fs w !! p.
Proof.
  intros Hs (Ha & Hn & _) Hp.
  pose proof (source_not_dest p Hp) as Hnd.
  destruct (fs w !! p) as [x|] eqn:E; [by apply Ha|].
  destruct (Hn p Hnd E) as [->|[Hmade _]]; [done|].
  apply (source_made p Hp), Hs in Hmade. by rewrite Hmade in E.
Qed.

Lemma match_dir_iff {B} (o1 o2 : option node) (a b : B) :
  (o1 = Some Dir ↔ o2 = Some Dir) →
  match o1 with Some Dir => a | _ => b end
  = match o2 with Some Dir => a | _ => b end.
Proof.
  intros [H1 H2].
  destruct o1 as [[|c1]|], o2 as [[|c2]|]; try done;
    first [by discriminate H1 | by discriminate H2].
Qed.

(** The verdicts of the batch's own steps are the same in a world that
    [keeps] the one they were read in. *)
Lemma dir_verdict_keeps w w' d :
  keeps script_dir w w' → d ∈ output_dirs script_dir →
  dir_verdict w' d = dir_verdict w d.
Proof.
  intros Hk Hd.
  assert (Hreg : ∀ a, a ∈ d :: ancestors d →
            is_regular (fs w' !! a) = is_regular (fs w !! a)).
  { intros a Ha. apply keeps_regular; [done|].
    intros Hq. by apply (dest_not_made a Hq), (made_dirs_above script_dir d). }
  unfold dir_verdict.
  rewrite (existsb_agree _ (λ a, is_regular (fs w !! a)))
    by (intros a Ha; by apply Hreg, list_elem_of_further).
  by rewrite (Hreg d) by apply list_elem_of_here.
Qed.

Lemma wall_verdict_keeps w w' src_file dst_file :
  settled script_dir w → keeps script_dir w w' →
  (src_file, dst_file) ∈ WALL_MAP →
  wall_verdict script_dir w' src_file dst_file
  = wall_verdict script_dir w src_file dst_file.
Proof.
  intros Hs Hk Hin. unfold wall_verdict.
  rewrite (keeps_source w w') by (done || by eapply wall_source_path).
  destruct (fs w !! wall_src_path src_file) as [[|[|s]]|]; try done.
  apply match_dir_iff. destruct Hk as (_ & _ & Hb).
  apply Hb. by eapply wall_dest_path.
Qed.

Lemma enemy_verdict_keeps w w' prefix dirname frames frame :
  settled script_dir w → keeps script_dir w w' →
  (prefix, dirname, frames) ∈ ENEMIES → frame ∈ frames →
  enemy_verdict w' (enemy_src_path prefix frame)
    (enemy_dst_path (enemy_out_dir script_dir dirname) frame)
  = enemy_verdict w (enemy_src_path prefix frame)
      (enemy_dst_path (enemy_out_dir script_dir dirname) frame).
Proof.
  intros Hs Hk Hcat Hframe. unfold enemy_verdict.
  rewrite (keeps_source w w') by (done || by eapply enemy_source_path).
  destruct (fs w !! enemy_src_path prefix frame) as [[|[|s]]|]; try done.
  destruct (colorkey (convert_RGBA s)); [|done].
  apply match_dir_iff. destruct Hk as (_ & _ & Hb).
  apply Hb. by eapply enemy_dest_path.
Qed.

(** *** The world in which the wall loop starts *)

Lemma settle_settled w : settled script_dir (settle script_dir w).
Proof.
  intros a Ha. unfold settle; simpl. rewrite lookup_mkdirs.
  by rewrite decide_True by (by apply list_elem_of_further).
Qed.

Lemma settle_lookup w p :
  fs (settle script_dir w) !! p ≠ Some Dir →
  fs (settle script_dir w) !! p = fs w !! p.
Proof. unfold settle; simpl. rewrite lookup_mkdirs. by case_decide. Qed.

Lemma settle_keeps w :
  dir_verdict w (walls_dir script_dir) = Ensures →
  keeps script_dir w (settle script_dir w).
Proof.
  intros H. apply keeps_mkdirs; [apply list_elem_of_here|].
  by apply dir_verdict_Ensures.
Qed.

Lemma mkdirs_in_place ds (m : gmap string node) :
  (∀ d, d ∈ ds → m !! d = Some Dir) → mkdirs ds m = m.
Proof.
  intros H. apply map_eq. intros p. rewrite lookup_mkdirs.
  case_decide as Hin; [by rewrite H | done].
Qed.

Lemma mkdirs_twice ds (m : gmap string node) :
  mkdirs ds (mkdirs ds m) = mkdirs ds m.
Proof.
  apply mkdirs_in_place. intros d Hd. rewrite lookup_mkdirs.
  by rewrite decide_True.
Qed.

End keeps_facts.

Section follows_facts.

Context (script_dir : string).
Implicit Types (w : world) (p q d : string) (l : list (string * verdict)).

Lemma first_failure_app l1 l2 :
  first_failure (l1 ++ l2)
  = match first_failure l1 with
    | Some e => Some e
    | None => first_failure l2
    end.
Proof.
  induction l1 as [|[p v] l1 IH]; [done|]. destruct v; simpl; done.
Qed.

Lemma executed_app l1 l2 :
  executed (l1 ++ l2)
  = match first_failure l1 with
    | Some _ => executed l1
    | None => executed l1 ++ executed l2
    end.
Proof.
  induction l1 as [|[p v] l1 IH]; [done|].
  destruct v; simpl; rewrite ?IH; by destruct (first_failure l1).
Qed.

Lemma executed_all l : first_failure l = None → executed l = l.
Proof.
  induction l as [|[p v] l IH]; [done|].
  destruct v; simpl; intros H; by rewrite ?IH.
Qed.

Lemma conversions_app l1 l2 :
  conversions (l1 ++ l2) = conversions l1 + conversions l2.
Proof. unfold conversions. by rewrite filter_app, length_app. Qed.

Lemma follows_ret {A} (r : A) w : follows script_dir [] (mret r) w r.
Proof. exists w. split; [done|]. split; [apply keeps_refl | done]. Qed.

Lemma follows_print s w : follows script_dir [] (print s) w ().
Proof.
  exists (emit (EPrint s) w). split; [done|]. split; [by apply keeps_fs|done].
Qed.

Lemma follows_bind {A B} l1 l2 (m : M A) (f : A → M B) w r1 r2 :
  follows script_dir l1 m w r1 →
  (∀ w1, keeps script_dir w w1 → first_failure l1 = None →
         follows script_dir l2 (f r1) w1 r2) →
  follows script_dir (l1 ++ l2) (m ≫= f) w r2.
Proof.
  intros (w1 & Hfs1 & Hk1 & Hm) Hnext.
  unfold follows. rewrite first_failure_app, executed_app.
  unfold mbind, M_bind. rewrite Hm.
  destruct (first_failure l1) as [e|] eqn:E; [by exists w1|].
  destruct (Hnext w1 Hk1 eq_refl) as (w2 & Hfs2 & Hk2 & Hf).
  exists w2. split; [by rewrite foldl_app, <- Hfs1|].
  split; [by eapply keeps_trans | done].
Qed.

(** A step that touches nothing, in front of the steps that follow. *)
Lemma follows_then {A B} l (m : M A) (f : A → M B) w r1 r2 :
  follows script_dir [] m w r1 →
  (∀ w1, keeps script_dir w w1 → follows script_dir l (f r1) w1 r2) →
  follows script_dir l (m ≫= f) w r2.
Proof.
  intros Hm Hnext. change l with ([] ++ l).
  eapply follows_bind; [done|]. auto.
Qed.

Lemma follows_ensure_dir d w :
  d ∈ output_dirs script_dir →
  follows script_dir [(d, dir_verdict w d)] (ensure_dir d) w ().
Proof.
  intros Hd. pose proof (dir_verdict_Ensures w d) as Hfree.
  unfold follows, ensure_dir, os_makedirs. unfold dir_verdict in *.
  destruct (existsb _ _); simpl.
  { exists w. split; [done|]. split; [apply keeps_refl | done]. }
  destruct (is_regular _); simpl.
  { exists w. split; [done|]. split; [apply keeps_refl | done]. }
  eexists. split; [|split; [|done]]; [done|].
  apply keeps_mkdirs; auto.
Qed.

Lemma follows_convert_wall src_file dst_file w :
  (src_file, dst_file) ∈ WALL_MAP →
  let step := (wall_dst_path script_dir dst_file,
               wall_verdict script_dir w src_file dst_file) in
  follows script_dir [step] (convert_wall script_dir src_file dst_file) w
    (is_conversion step).
Proof.
  intros Hin step. unfold follows, step, is_conversion, wall_verdict,
    convert_wall, mbind, M_bind, os_path_exists, Image_open, Image_save,
    print; simpl.
  destruct (fs w !! wall_src_path src_file) as [[|[|s]]|] eqn:Hsrc; simpl.
  - rewrite Hsrc. exists w. split; [done|]. split; [apply keeps_refl|done].
  - rewrite Hsrc. exists w. split; [done|]. split; [apply keeps_refl|done].
  - rewrite Hsrc.
    destruct (fs w !! wall_dst_path script_dir dst_file) as [[|c]|] eqn:Hdst;
      simpl.
    + exists w. split; [done|]. split; [apply keeps_refl|done].
    + eexists. split; [|split; [|done]]; [done|].
      apply keeps_save; [by eapply wall_dest_path | by rewrite Hdst].
    + eexists. split; [|split; [|done]]; [done|].
      apply keeps_save; [by eapply wall_dest_path | by rewrite Hdst].
  - eexists. split; [|split; [|done]]; [done|]. by apply keeps_fs.
Qed.

Lemma follows_convert_enemy prefix dirname frames frame w :
  (prefix, dirname, frames) ∈ ENEMIES → frame ∈ frames →
  let src_path := enemy_src_path prefix frame in
  let dst_path := enemy_dst_path (enemy_out_dir script_dir dirname) frame in
  let step := (dst_path, enemy_verdict w src_path dst_path) in
  follows script_dir [step] (convert_enemy src_path dst_path) w
    (is_conversion step).
Proof.
  intros Hcat Hframe src_path dst_path step.
  unfold follows, step, is_conversion, enemy_verdict, convert_enemy,
    mbind, M_bind, os_path_exists, Image_open, Image_save, lift_result,
    print; simpl.
  destruct (fs w !! src_path) as [[|[|s]]|] eqn:Hsrc; simpl.
  - rewrite Hsrc. exists w. split; [done|]. split; [apply keeps_refl|done].
  - rewrite Hsrc. exists w. split; [done|]. split; [apply keeps_refl|done].
  - rewrite Hsrc. destruct (colorkey (convert_RGBA s)) as [img|e]; simpl.
    2:{ exists w. split; [done|]. split; [apply keeps_refl|done]. }
    destruct (fs w !! dst_path) as [[|c]|] eqn:Hdst; simpl.
    + exists w. split; [done|]. split; [apply keeps_refl|done].
    + eexists. split; [|split; [|done]]; [done|].
      apply keeps_save; [by eapply enemy_dest_path | by rewrite Hdst].
    + eexists. split; [|split; [|done]]; [done|].
      apply keeps_save; [by eapply enemy_dest_path | by rewrite Hdst].
  - eexists. split; [|split; [|done]]; [done|]. by apply keeps_fs.
Qed.

End follows_facts.

Section batch_follows.

Context (script_dir : string).
Implicit Types (w : world) (p q d : string) (l : list (string * verdict)).
Implicit Types (enemies : list (string * string * list string)).

Lemma follows_result {A} l (m : M A) w (r r' : A) :
  r = r' → follows script_dir l m w r → follows script_dir l m w r'.
Proof. by intros ->. Qed.

Lemma follows_steps {A} l l' (m : M A) w (r : A) :
  l = l' → follows script_dir l m w r → follows script_dir l' m w r.
Proof. by intros ->. Qed.

(** Returning a function of the result changes no step. *)
Lemma follows_map {A B} l (m : M A) (g : A → B) w r :
  follows script_dir l m w r →
  follows script_dir l (a ← m; mret (g a)) w (g r).
Proof.
  intros H. apply (follows_steps (l ++ [])); [apply app_nil_r|].
  eapply follows_bind; [done|]. intros w1 _ _. apply follows_ret.
Qed.

Lemma conversions_cons step l :
  conversions (step :: l)
  = (if is_conversion step then 1 else 0) + conversions l.
Proof.
  unfold conversions. rewrite filter_cons.
  by destruct (is_conversion step).
Qed.

Lemma conversions_dir_step w d l :
  conversions ((d, dir_verdict w d) :: l) = conversions l.
Proof.
  rewrite conversions_cons. unfold is_conversion; simpl.
  by destruct (dir_verdict_cases w d) as [->|[e ->]].
Qed.

Lemma wall_steps_keeps w w' items :
  settled script_dir w → keeps script_dir w w' → items ⊆ WALL_MAP →
  wall_steps script_dir w' items = wall_steps script_dir w items.
Proof.
  intros Hs Hk Hsub. unfold wall_steps. apply list_fmap_ext.
  intros i [src_file dst_file] Hi; simpl. f_equal.
  apply wall_verdict_keeps; [done..|].
  apply Hsub. by eapply list_elem_of_lookup_2.
Qed.

Lemma frame_steps_keeps w w' prefix dirname frames' frames :
  settled script_dir w → keeps script_dir w w' →
  (prefix, dirname, frames') ∈ ENEMIES → frames ⊆ frames' →
  frame_steps w' prefix (enemy_out_dir script_dir dirname) frames
  = frame_steps w prefix (enemy_out_dir script_dir dirname) frames.
Proof.
  intros Hs Hk Hcat Hsub. unfold frame_steps. apply list_fmap_ext.
  intros i frame Hi; simpl. f_equal.
  eapply enemy_verdict_keeps; [done..|].
  apply Hsub. by eapply list_elem_of_lookup_2.
Qed.

Lemma enemy_steps_keeps w w' enemies :
  settled script_dir w → keeps script_dir w w' → enemies ⊆ ENEMIES →
  enemy_steps script_dir w' enemies = enemy_steps script_dir w enemies.
Proof.
  intros Hs Hk Hsub. unfold enemy_steps.
  induction enemies as [|[[prefix dirname] frames] enemies IH]; [done|].
  assert (Hcat : (prefix, dirname, frames) ∈ ENEMIES)
    by apply Hsub, list_elem_of_here.
  rewrite !bind_cons; simpl.
  rewrite (dir_verdict_keeps script_dir w w')
    by (done || by eapply enemy_output_dir).
  rewrite (frame_steps_keeps w w' prefix dirname frames) by done.
  rewrite IH; [done|].
  intros e He. apply Hsub. by apply list_elem_of_further.
Qed.

Lemma wall_loop_follows items wall_count w :
  settled script_dir w → items ⊆ WALL_MAP →
  follows script_dir (wall_steps script_dir w items)
    (wall_loop script_dir items wall_count) w
    (wall_count + conversions (wall_steps script_dir w items)).
Proof.
  revert wall_count w.
  induction items as [|[src_file dst_file] items IH];
    intros wall_count w Hs Hsub.
  - eapply follows_result; [|apply follows_ret].
    unfold conversions; simpl. lia.
  - assert (Hin : (src_file, dst_file) ∈ WALL_MAP)
      by apply Hsub, list_elem_of_here.
    assert (Hrest : items ⊆ WALL_MAP).
    { intros e He. apply Hsub. by apply list_elem_of_further. }
    set (step := (wall_dst_path script_dir dst_file,
                  wall_verdict script_dir w src_file dst_file)).
    unfold wall_loop; simpl.
    eapply (follows_bind _ [step] (wall_steps script_dir w items)).
    + apply (follows_map _ _
               (λ ok : bool, if ok then wall_count + 1 else wall_count)).
      by apply follows_convert_wall.
    + intros w1 Hk _. simpl.
      pose proof (keeps_settled script_dir w w1 Hs Hk) as Hs1.
      rewrite <- (wall_steps_keeps w w1) by done.
      eapply follows_result; [|apply IH; done].
      rewrite (wall_steps_keeps w w1) by done.
      rewrite conversions_cons. fold step.
      destruct (is_conversion step); lia.
Qed.

Lemma frame_loop_follows prefix dirname frames' frames enemy_count w :
  settled script_dir w →
  (prefix, dirname, frames') ∈ ENEMIES → frames ⊆ frames' →
  follows script_dir
    (frame_steps w prefix (enemy_out_dir script_dir dirname) frames)
    (frame_loop prefix (enemy_out_dir script_dir dirname) frames
       enemy_count) w
    (enemy_count
     + conversions
         (frame_steps w prefix (enemy_out_dir script_dir dirname) frames)).
Proof.
  intros Hs Hcat Hsub. revert enemy_count w Hs.
  induction frames as [|frame frames IH]; intros enemy_count w Hs.
  - eapply follows_result; [|apply follows_ret].
    unfold conversions; simpl. lia.
  - assert (Hin : frame ∈ frames') by apply Hsub, list_elem_of_here.
    assert (Hrest : frames ⊆ frames').
    { intros e He. apply Hsub. by apply list_elem_of_further. }
    set (step := (enemy_dst_path (enemy_out_dir script_dir dirname) frame,
                  enemy_verdict w (enemy_src_path prefix frame)
                    (enemy_dst_path (enemy_out_dir script_dir dirname)
                       frame))).
    unfold frame_loop; simpl.
    eapply (follows_bind _ [step]
              (frame_steps w prefix (enemy_out_dir script_dir dirname)
                 frames)).
    + apply (follows_map _ _
               (λ ok : bool, if ok then enemy_count + 1 else enemy_count)).
      by eapply follows_convert_enemy.
    + intros w1 Hk _. simpl.
      pose proof (keeps_settled script_dir w w1 Hs Hk) as Hs1.
      rewrite <- (frame_steps_keeps w w1 prefix dirname frames') by done.
      eapply follows_result; [|apply IH; done].
      rewrite (frame_steps_keeps w w1 prefix dirname frames') by done.
      rewrite conversions_cons. fold step.
      destruct (is_conversion step); lia.
Qed.

Lemma enemy_loop_follows enemies enemy_count w :
  settled script_dir w → enemies ⊆ ENEMIES →
  follows script_dir (enemy_steps script_dir w enemies)
    (enemy_loop script_dir enemies enemy_count) w
    (enemy_count + conversions (enemy_steps script_dir w enemies)).
Proof.
  revert enemy_count w.
  induction enemies as [|[[prefix dirname] frames] enemies IH];
    intros enemy_count w Hs Hsub.
  - eapply follows_result; [|apply follows_ret].
    unfold conversions; simpl. lia.
  - assert (Hcat : (prefix, dirname, frames) ∈ ENEMIES)
      by apply Hsub, list_elem_of_here.
    assert (Hrest : enemies ⊆ ENEMIES).
    { intros e He. apply Hsub. by apply list_elem_of_further. }
    pose (out_dir := enemy_out_dir script_dir dirname).
    set (mk := (out_dir, dir_verdict w out_dir)).
    set (fsteps := frame_steps w prefix out_dir frames).
    unfold enemy_loop; simpl.
    eapply (follows_bind _ ([mk] ++ fsteps)
              (enemy_steps script_dir w enemies)).
    + eapply (follows_bind _ [mk] fsteps _ _ _ ()
                (enemy_count + conversions fsteps));
        [by eapply follows_ensure_dir, enemy_output_dir|].
      intros w1 Hk1 _.
      pose proof (keeps_settled script_dir w w1 Hs Hk1) as Hs1.
      pose proof (frame_loop_follows prefix dirname frames frames
                    enemy_count w1 Hs1 Hcat (λ x Hx, Hx)) as Hf.
      rewrite (frame_steps_keeps w w1 prefix dirname frames) in Hf by done.
      apply (follows_steps (fsteps ++ [])); [apply app_nil_r|].
      eapply follows_bind; [exact Hf|].
      intros w2 Hk2 _. eapply follows_then; [apply follows_print|].
      intros w3 _. apply follows_ret.
    + intros w1 Hk _. simpl.
      pose proof (keeps_settled script_dir w w1 Hs Hk) as Hs1.
      rewrite <- (enemy_steps_keeps w w1) by done.
      eapply follows_result; [|apply IH; done].
      rewrite (enemy_steps_keeps w w1) by done.
      rewrite conversions_dir_step, conversions_app. unfold fsteps, out_dir.
      lia.
Qed.

Lemma walls_plan_keeps w w' :
  settled script_dir w → keeps script_dir w w' →
  walls_plan script_dir w' = walls_plan script_dir w.
Proof.
  intros Hs Hk. unfold walls_plan.
  rewrite (dir_verdict_keeps script_dir w w')
    by (done || apply list_elem_of_here).
  by rewrite (wall_steps_keeps w w').
Qed.

Lemma enemies_plan_keeps w w' :
  settled script_dir w → keeps script_dir w w' →
  enemies_plan script_dir w' = enemies_plan script_dir w.
Proof. intros Hs Hk. by apply enemy_steps_keeps. Qed.

Lemma convert_walls_follows w :
  settled script_dir w →
  follows script_dir (walls_plan script_dir w) (convert_walls script_dir) w
    (conversions (walls_plan script_dir w)).
Proof.
  intros Hs. unfold convert_walls.
  eapply follows_then; [apply follows_print|]. intros w1 Hk1.
  set (mk := (walls_dir script_dir, dir_verdict w (walls_dir script_dir))).
  set (steps := wall_steps script_dir w WALL_MAP).
  apply (follows_result _ _ _ (0 + conversions steps)).
  { unfold walls_plan. fold steps. by rewrite conversions_dir_step. }
  eapply (follows_bind _ [mk] steps _ _ _ () (0 + conversions steps)).
  { unfold mk.
    rewrite <- (dir_verdict_keeps script_dir w w1)
      by (done || apply list_elem_of_here).
    apply follows_ensure_dir, list_elem_of_here. }
  intros w2 Hk2 _.
  assert (Hk : keeps script_dir w w2) by (by eapply keeps_trans).
  pose proof (keeps_settled script_dir w w2 Hs Hk) as Hs2.
  pose proof (wall_loop_follows WALL_MAP 0 w2 Hs2 (λ x Hx, Hx)) as Hloop.
  rewrite (wall_steps_keeps w w2) in Hloop by done.
  apply (follows_steps (steps ++ [])); [apply app_nil_r|].
  eapply follows_bind; [exact Hloop|].
  intros w3 Hk3 _. eapply follows_then; [apply follows_print|].
  intros w4 _. apply follows_ret.
Qed.

Lemma convert_enemies_follows w :
  settled script_dir w →
  follows script_dir (enemies_plan script_dir w)
    (convert_enemies script_dir) w
    (conversions (enemies_plan script_dir w)).
Proof.
  intros Hs. unfold convert_enemies.
  eapply follows_then; [apply follows_print|]. intros w1 Hk1.
  pose proof (keeps_settled script_dir w w1 Hs Hk1) as Hs1.
  pose proof (enemy_loop_follows ENEMIES 0 w1 Hs1 (λ x Hx, Hx)) as Hloop.
  rewrite (enemy_steps_keeps w w1) in Hloop by done.
  apply (follows_steps (enemies_plan script_dir w ++ []));
    [apply app_nil_r|].
  eapply follows_bind; [exact Hloop|].
  intros w2 Hk2 _. eapply follows_then; [apply follows_print|].
  intros w3 _. apply follows_ret.
Qed.

(** Started where the directories above the walls directory are in
    place, [main] does what the steps of [plan], read in that world,
    say. *)
Lemma main_follows w :
  settled script_dir w →
  follows script_dir (plan script_dir w) (main script_dir) w
    (conversions (walls_plan script_dir w),
     conversions (enemies_plan script_dir w)).
Proof.
  intros Hs. unfold main, plan.
  eapply follows_then; [apply follows_print|]. intros w1 Hk1.
  pose proof (keeps_settled script_dir w w1 Hs Hk1) as Hs1.
  pose proof (convert_walls_follows w1 Hs1) as Hwalls.
  rewrite (walls_plan_keeps w w1) in Hwalls by done.
  eapply follows_bind; [exact Hwalls|].
  intros w2 Hk2 _.
  assert (Hk : keeps script_dir w w2) by (by eapply keeps_trans).
  pose proof (keeps_settled script_dir w w2 Hs Hk) as Hs2.
  pose proof (convert_enemies_follows w2 Hs2) as Henemies.
  rewrite (enemies_plan_keeps w w2) in Henemies by done.
  apply (follows_steps (enemies_plan script_dir w ++ []));
    [apply app_nil_r|].
  eapply follows_bind; [exact Henemies|].
  intros w3 Hk3 _. eapply follows_then; [apply follows_print|].
  intros w4 _. apply follows_ret.
Qed.

(** The first thing [main] does to the file system is to ensure the walls
    directory.  Where that fails the run ends, the file system untouched;
    otherwise the run goes on as from [settle w]. *)
Lemma main_settle w :
  (∃ e w', main script_dir w = Abort e w' ∧ fs w' = fs w) ∨
  (dir_verdict w (walls_dir script_dir) = Ensures ∧
   main script_dir w = main script_dir (settle script_dir w)).
Proof.
  pose proof (settle_settled script_dir w) as Hs.
  unfold main, convert_walls, ensure_dir.
  change (os_path_join (DST script_dir) ["walls"])
    with (walls_dir script_dir).
  unfold mbind, M_bind, print. cbv beta iota.
  set (w1 := emit _ (emit _ w)). set (w2 := emit _ (emit _ (settle _ w))).
  unfold dir_verdict.
  destruct (existsb _ (ancestors (walls_dir script_dir))) eqn:Hex.
  { left. unfold os_makedirs. subst w1; simpl. rewrite Hex. by eexists _, _. }
  destruct (is_regular (fs w !! walls_dir script_dir)) eqn:Hleaf.
  { left. unfold os_makedirs. subst w1; simpl. rewrite Hex, Hleaf.
    by eexists _, _. }
  right. split; [done|].
  rewrite (os_makedirs_Done _ w1) by done.
  rewrite (os_makedirs_Done _ w2).
  - subst w1 w2. unfold settle, emit; cbn [fs trace].
    by rewrite mkdirs_twice.
  - apply existsb_is_regular. intros d c Hd.
    change (fs w2) with (fs (settle script_dir w)). by rewrite (Hs d Hd).
  - change (fs w2) with (fs (settle script_dir w)).
    unfold settle; simpl. rewrite lookup_mkdirs.
    by rewrite decide_True by apply list_elem_of_here.
Qed.

End batch_follows.

(** ** No two steps share a path *)

Section plan_paths_facts.

Context (script_dir : string).
Implicit Types (w : world) (p q d : string) (l : list (string * verdict)).

Lemma plan_paths_relative :
  plan_paths script_dir = (λ rel, DST script_dir +:+ rel) <$> relative_paths.
Proof.
  unfold plan_paths, relative_paths.
  rewrite fmap_cons, fmap_app, walls_dir_eq. f_equal. f_equal.
  - rewrite <- list_fmap_compose. apply list_fmap_ext.
    intros i [src_file dst_file] Hi; simpl.
    apply wall_dst_path_eq.
    apply list_elem_of_lookup_2 in Hi. unfold WALL_MAP in Hi.
    in_table Hi; by injection Hi as -> ->.
  - assert (Hall : ∀ enemies, enemies ⊆ ENEMIES →
      (enemies ≫= λ e,
         enemy_out_dir script_dir e.1.2
         :: (enemy_dst_path (enemy_out_dir script_dir e.1.2) <$> e.2))
      = (λ rel, DST script_dir +:+ rel) <$>
        (enemies ≫= λ e,
           ("/enemies/" +:+ e.1.2)
           :: ((λ frame,
                  "/enemies/" +:+ e.1.2 +:+ "/" +:+ enemy_dst_file frame)
                 <$> e.2))).
    { induction enemies as [|[[prefix dirname] frames] enemies IH];
        intros Hsub; [done|].
      assert (Hcat : (prefix, dirname, frames) ∈ ENEMIES)
        by apply Hsub, list_elem_of_here.
      rewrite !bind_cons, fmap_app, fmap_cons; simpl.
      rewrite IH by (intros e He; apply Hsub; by apply list_elem_of_further).
      f_equal; [|f_equal].
      - apply enemy_out_dir_eq. unfold ENEMIES in Hcat.
        in_table Hcat; by injection Hcat as -> -> ->.
      - rewrite <- list_fmap_compose. apply list_fmap_ext.
        intros i frame Hi; simpl.
        eapply enemy_dst_path_eq; [done|].
        by eapply list_elem_of_lookup_2. }
    by apply Hall.
Qed.

Lemma relative_paths_NoDup : NoDup relative_paths.
Proof. apply (bool_decide_unpack _). by vm_compute. Qed.

Lemma plan_paths_NoDup : NoDup (plan_paths script_dir).
Proof.
  rewrite plan_paths_relative.
  apply (NoDup_fmap_2 _), relative_paths_NoDup.
Qed.

Lemma enemy_steps_fst w (enemies : list (string * string * list string)) :
  (enemy_steps script_dir w enemies).*1
  = enemies ≫= λ e,
      enemy_out_dir script_dir e.1.2
      :: (enemy_dst_path (enemy_out_dir script_dir e.1.2) <$> e.2).
Proof.
  unfold enemy_steps. induction enemies as [|e enemies IH]; [done|].
  rewrite !bind_cons, fmap_app, fmap_cons, IH; simpl.
  unfold frame_steps. by rewrite <- list_fmap_compose.
Qed.

Lemma plan_fst w : (plan script_dir w).*1 = plan_paths script_dir.
Proof.
  unfold plan, plan_paths, walls_plan, enemies_plan, wall_steps.
  rewrite fmap_app, fmap_cons, enemy_steps_fst.
  by rewrite <- list_fmap_compose.
Qed.

End plan_paths_facts.

(** ** What the steps leave in the file system *)

Section write_facts.

Implicit Types (m : gmap string node) (l : list (string * verdict)).
Implicit Types (p : string) (v : verdict).

Lemma lookup_write m step p :
  write m step !! p
  = match step.2 with
    | Converts img =>
        if decide (step.1 = p) then Some (File (png_of img)) else m !! p
    | Ensures =>
        if decide (p ∈ step.1 :: ancestors step.1) then Some Dir else m !! p
    | _ => m !! p
    end.
Proof.
  destruct step as [q v]. unfold write; simpl. destruct v; try done.
  - destruct (decide (q = p)) as [->|Hne];
      by rewrite ?lookup_insert_eq, ?lookup_insert_ne by done.
  - apply lookup_mkdirs.
Qed.

Lemma not_own_ancestor p : p ∉ ancestors p.
Proof. intros H%ancestors_shorter. lia. Qed.

(** What a step leaves at its own path. *)
Lemma lookup_write_here m p v :
  write m (p, v) !! p = left_by v (m !! p).
Proof.
  rewrite lookup_write; simpl. destruct v; simpl; try done.
  - by rewrite decide_True.
  - by rewrite decide_True by apply list_elem_of_here.
Qed.

(** A step at another path, which ensures no directory above [p], leaves
    [p] as it is. *)
Lemma lookup_write_other m step p :
  step.1 ≠ p → (step.2 = Ensures → p ∉ ancestors step.1) →
  write m step !! p = m !! p.
Proof.
  intros Hne Hup. rewrite lookup_write. destruct step as [q v]; simpl in *.
  destruct v; try done.
  - by rewrite decide_False.
  - rewrite decide_False; [done|].
    intros [->|Hin]%elem_of_cons; [done | by apply Hup].
Qed.

Lemma lookup_foldl_write_notin l m p :
  p ∉ l.*1 → (∀ d, (d, Ensures) ∈ l → p ∉ ancestors d) →
  foldl write m l !! p = m !! p.
Proof.
  revert m. induction l as [|[q v] l IH]; intros m Hp Hup; [done|].
  simpl. rewrite fmap_cons in Hp. apply not_elem_of_cons in Hp as [Hne Hp].
  rewrite IH; [|done|].
  - apply lookup_write_other; [done|]. simpl. intros ->.
    apply Hup, list_elem_of_here.
  - intros d Hd. by apply Hup, list_elem_of_further.
Qed.

Lemma lookup_foldl_write_in l m p v :
  NoDup l.*1 → (p, v) ∈ l →
  (∀ d, (d, Ensures) ∈ l → p ∉ ancestors d) →
  foldl write m l !! p = left_by v (m !! p).
Proof.
  revert m. induction l as [|[q u] l IH]; intros m Hnd Hin Hup.
  - by apply elem_of_nil in Hin.
  - rewrite fmap_cons in Hnd. apply NoDup_cons in Hnd as [Hq Hnd]. simpl.
    assert (Hrest : ∀ d, (d, Ensures) ∈ l → p ∉ ancestors d).
    { intros d Hd. by apply Hup, list_elem_of_further. }
    apply elem_of_cons in Hin as [[= <- <-]|Hin].
    + rewrite lookup_foldl_write_notin by done. apply lookup_write_here.
    + rewrite IH by done. f_equal.
      apply lookup_write_other; simpl.
      * intros ->. apply Hq. by apply (list_elem_of_fmap_2 fst _ _ Hin).
      * intros ->. apply Hup, list_elem_of_here.
Qed.

(** What a list of steps leaves at a path does not depend on the file
    system they start in, or is what was there. *)
Lemma foldl_write_lookup l p :
  (∃ c, ∀ m, foldl write m l !! p = c) ∨
  (∀ m, foldl write m l !! p = m !! p).
Proof.
  induction l as [|[q v] l IH]; [by right|]. simpl.
  destruct IH as [[c Hc]|Hid]; [left; exists c; intros m; apply Hc|].
  destruct v.
  - right. intros m. by rewrite Hid.
  - destruct (decide (q = p)) as [->|Hne].
    + left. eexists. intros m. rewrite Hid, lookup_write; simpl.
      by rewrite decide_True.
    + right. intros m. rewrite Hid, lookup_write; simpl.
      by rewrite decide_False.
  - destruct (decide (p ∈ q :: ancestors q)) as [Hin|Hnotin].
    + left. eexists. intros m. rewrite Hid, lookup_write; simpl.
      by rewrite decide_True.
    + right. intros m. rewrite Hid, lookup_write; simpl.
      by rewrite decide_False.
  - right. intros m. by rewrite Hid.
Qed.

(** Taking the same steps again, in the world they left, changes nothing. *)
Lemma foldl_write_twice l m :
  foldl write (foldl write m l) l = foldl write m l.
Proof.
  apply map_eq; intros p.
  destruct (foldl_write_lookup l p) as [[c Hc]|Hid];
    [by rewrite !Hc | by rewrite Hid].
Qed.

Lemma first_failure_None l :
  first_failure l = None ↔ Forall (λ step, ∀ e, step.2 ≠ Fails e) l.
Proof.
  induction l as [|[p v] l IH]; [by split; [constructor|]|].
  rewrite Forall_cons; simpl. destruct v; simpl.
  - rewrite IH. split; [by split | by intros [_ ?]].
  - rewrite IH. split; [by split | by intros [_ ?]].
  - rewrite IH. split; [by split | by intros [_ ?]].
  - split; [done|]. intros [H _]. by destruct (H e).
Qed.

End write_facts.

(** ** [convert_enemy] on a source that is present *)



(** ** Whole runs *)

(** A run that finishes has ensured the walls directory, and from there
    on has taken every step of [plan], read in the world with that
    directory in place. *)
Lemma main_Done_inv script_dir w r w' :
  main script_dir w = Done r w' →
  dir_verdict w (walls_dir script_dir) = Ensures ∧
  first_failure (plan script_dir (settle script_dir w)) = None ∧
  r = (conversions (walls_plan script_dir (settle script_dir w)),
       conversions (enemies_plan script_dir (settle script_dir w))) ∧
  fs w' = foldl write (fs (settle script_dir w))
            (plan script_dir (settle script_dir w)) ∧
  keeps script_dir (settle script_dir w) w'.
Proof.
  intros H.
  destruct (main_settle script_dir w) as [(e & w1 & Habort & _)|[Hv Heq]];
    [by rewrite H in Habort|].
  destruct (main_follows script_dir _ (settle_settled script_dir w))
    as (w1 & Hfs & Hk & Hm).
  rewrite <- Heq, H in Hm.
  destruct (first_failure (plan script_dir (settle script_dir w))) eqn:E;
    [done|].
  injection Hm as -> ->. by rewrite executed_all in Hfs.
Qed.




Lemma wall_step_present script_dir w0 w src_file dst_file :
  (∀ p, fs w0 !! p ≠ Some Dir → fs w0 !! p = fs w !! p) →
  (∀ e, wall_verdict script_dir w0 src_file dst_file ≠ Fails e) →
  is_conversion (wall_dst_path script_dir dst_file,
                 wall_verdict script_dir w0 src_file dst_file)
  = present w (wall_src_path src_file).
Proof.
  intros Hrel. specialize (Hrel (wall_src_path src_file)).
  unfold is_conversion, present, wall_verdict; simpl.
  destruct (fs w0 !! wall_src_path src_file) as [[|[|s]]|]; intros H.
  - by destruct (H IsADirectoryError).
  - by destruct (H UnidentifiedImageError).
  - rewrite <- Hrel by done.
    destruct (fs w0 !! wall_dst_path script_dir dst_file) as [[|c]|].
    + by destruct (H IsADirectoryError).
    + by rewrite bool_decide_true by (by eexists).
    + by rewrite bool_decide_true by (by eexists).
  - rewrite <- Hrel by done.
    by rewrite bool_decide_false by (by intros [??]).
Qed.

Lemma enemy_step_present w0 w src_path dst_path :
  (∀ p, fs w0 !! p ≠ Some Dir → fs w0 !! p = fs w !! p) →
  (∀ e, enemy_verdict w0 src_path dst_path ≠ Fails e) →
  is_conversion (dst_path, enemy_verdict w0 src_path dst_path)
  = present w src_path.
Proof.
  intros Hrel. specialize (Hrel src_path).
  unfold is_conversion, present, enemy_verdict; simpl.
  destruct (fs w0 !! src_path) as [[|[|s]]|]; intros H.
  - by destruct (H IsADirectoryError).
  - by destruct (H UnidentifiedImageError).
  - rewrite <- Hrel by done.
    destruct (colorkey (convert_RGBA s)) as [img|e0];
      [|by destruct (H e0)].
    destruct (fs w0 !! dst_path) as [[|c]|].
    + by destruct (H IsADirectoryError).
    + by rewrite bool_decide_true by (by eexists).
    + by rewrite bool_decide_true by (by eexists).
  - rewrite <- Hrel by done.
    by rewrite bool_decide_false by (by intros [??]).
Qed.

Lemma wall_steps_conversions script_dir w0 w
    (items : list (string * string)) :
  (∀ p, fs w0 !! p ≠ Some Dir → fs w0 !! p = fs w !! p) →
  first_failure (wall_steps script_dir w0 items) = None →
  conversions (wall_steps script_dir w0 items)
  = length (filter (λ e, present w (wall_src_path e.1)) items).
Proof.
  intros Hrel.
  induction items as [|[src_file dst_file] items IH]; [done|].
  intros Hnone. apply first_failure_None in Hnone.
  unfold wall_steps in Hnone. rewrite fmap_cons in Hnone.
  apply Forall_cons in Hnone as [Hhead Hrest]. simpl in Hhead.
  apply first_failure_None in Hrest.
  change (wall_steps script_dir w0 ((src_file, dst_file) :: items))
    with ((wall_dst_path script_dir dst_file,
           wall_verdict script_dir w0 src_file dst_file)
          :: wall_steps script_dir w0 items).
  rewrite conversions_cons, (wall_step_present _ w0 w), IH by done.
  rewrite filter_cons; simpl.
  destruct (present w (wall_src_path src_file)); done.
Qed.

Lemma frame_steps_conversions w0 w prefix out_dir (frames : list string) :
  (∀ p, fs w0 !! p ≠ Some Dir → fs w0 !! p = fs w !! p) →
  first_failure (frame_steps w0 prefix out_dir frames) = None →
  conversions (frame_steps w0 prefix out_dir frames)
  = length (filter (λ p, present w p) (enemy_src_path prefix <$> frames)).
Proof.
  intros Hrel.
  induction frames as [|frame frames IH]; [done|].
  intros Hnone. apply first_failure_None in Hnone.
  unfold frame_steps in Hnone. rewrite fmap_cons in Hnone.
  apply Forall_cons in Hnone as [Hhead Hrest]. simpl in Hhead.
  apply first_failure_None in Hrest.
  change (frame_steps w0 prefix out_dir (frame :: frames))
    with ((enemy_dst_path out_dir frame,
           enemy_verdict w0 (enemy_src_path prefix frame)
             (enemy_dst_path out_dir frame))
          :: frame_steps w0 prefix out_dir frames).
  rewrite conversions_cons, (enemy_step_present w0 w), IH by done.
  rewrite fmap_cons, filter_cons; simpl.
  destruct (present w (enemy_src_path prefix frame)); done.
Qed.

Lemma enemy_steps_conversions script_dir w0 w
    (enemies : list (string * string * list string)) :
  (∀ p, fs w0 !! p ≠ Some Dir → fs w0 !! p = fs w !! p) →
  first_failure (enemy_steps script_dir w0 enemies) = None →
  conversions (enemy_steps script_dir w0 enemies)
  = length (filter (λ p, present w p)
              (enemies ≫= λ e, enemy_src_path e.1.1 <$> e.2)).
Proof.
  intros Hrel. unfold enemy_steps.
  induction enemies as [|[[prefix dirname] frames] enemies IH]; [done|].
  rewrite !bind_cons; simpl. intros Hnone.
  change (first_failure
            ([(enemy_out_dir script_dir dirname,
               dir_verdict w0 (enemy_out_dir script_dir dirname))]
             ++ (frame_steps w0 prefix (enemy_out_dir script_dir dirname)
                   frames
                 ++ (enemies ≫= λ e,
                       (enemy_out_dir script_dir e.1.2,
                        dir_verdict w0 (enemy_out_dir script_dir e.1.2))
                       :: frame_steps w0 e.1.1
                            (enemy_out_dir script_dir e.1.2) e.2)))
          = None) in Hnone.
  rewrite !first_failure_app in Hnone.
  destruct (first_failure [_]) eqn:Hd; [done|].
  destruct (first_failure (frame_steps _ _ _ _)) eqn:Hf; [done|].
  rewrite conversions_dir_step, conversions_app, filter_app, length_app.
  by rewrite (frame_steps_conversions w0 w), IH.
Qed.

(** X6. The counters of a run that finishes are the numbers of sources
    that were present when it started: [wall_count] is the number of
    entries of [WALL_MAP] whose source path exists, [enemy_count] the
    number of enemy frames whose source path exists. *)
Theorem main_counts script_dir w wall_count enemy_count w' :
  main script_dir w = Done (wall_count, enemy_count) w' →
  wall_count
  = length (filter (λ e, present w (wall_src_path e.1)) WALL_MAP) ∧
  enemy_count = length (filter (λ p, present w p) enemy_source_paths).
Proof.
  intros H. apply main_Done_inv in H as (_ & Hnone & [= -> ->] & _ & _).
  pose proof (settle_lookup script_dir w) as Hrel.
  unfold plan in Hnone. rewrite first_failure_app in Hnone.
  destruct (first_failure (walls_plan script_dir _)) eqn:Hw; [done|].
  split.
  - unfold walls_plan in *. rewrite conversions_dir_step.
    change (first_failure
              ([(walls_dir script_dir,
                 dir_verdict (settle script_dir w) (walls_dir script_dir))]
               ++ wall_steps script_dir (settle script_dir w) WALL_MAP)
            = None) in Hw.
    rewrite first_failure_app in Hw.
    destruct (first_failure [_]) eqn:Hd; [done|].
    by apply wall_steps_conversions.
  - unfold enemies_plan, enemy_source_paths.
    by apply (enemy_steps_conversions script_dir _ w ENEMIES).
Qed.

Lemma main_counts_witness :
  1 = length (filter (λ e, present sample_world (wall_src_path e.1))
            WALL_MAP) ∧
  1 = length (filter (λ p, present sample_world p) enemy_source_paths).
Proof.
  apply (main_counts "/repo/scripts" sample_world 1 1
           (final_world (main "/repo/scripts") sample_world)).
  apply returned_final. by vm_compute.
Defined.

Lemma plan_NoDup script_dir w : NoDup (plan script_dir w).*1.
Proof. rewrite plan_fst. apply plan_paths_NoDup. Qed.

Lemma wall_step_in_plan script_dir w src_file dst_file :
  (src_file, dst_file) ∈ WALL_MAP →
  (wall_dst_path script_dir dst_file,
   wall_verdict script_dir w src_file dst_file) ∈ plan script_dir w.
Proof.
  intros Hin. unfold plan, walls_plan, wall_steps.
  apply elem_of_app. left. apply list_elem_of_further.
  by apply (list_elem_of_fmap_2
              (λ e, (wall_dst_path script_dir e.2,
                     wall_verdict script_dir w e.1 e.2)) _ _ Hin).
Qed.

Lemma enemy_step_in_plan script_dir w prefix dirname frames frame :
  (prefix, dirname, frames) ∈ ENEMIES → frame ∈ frames →
  (enemy_dst_path (enemy_out_dir script_dir dirname) frame,
   enemy_verdict w (enemy_src_path prefix frame)
     (enemy_dst_path (enemy_out_dir script_dir dirname) frame))
  ∈ plan script_dir w.
Proof.
  intros Hcat Hframe. unfold plan, enemies_plan, enemy_steps.
  apply elem_of_app. right. apply list_elem_of_bind.
  exists (prefix, dirname, frames). split; [|done]. simpl.
  apply list_elem_of_further. unfold frame_steps.
  by apply (list_elem_of_fmap_2
              (λ frame, (enemy_dst_path _ frame, enemy_verdict w _ _))
              _ _ Hframe).
Qed.

(** Only the steps at the output directories ensure a directory. *)
Lemma plan_Ensures script_dir w d :
  (d, Ensures) ∈ plan script_dir w → d ∈ output_dirs script_dir.
Proof.
  unfold plan, walls_plan, enemies_plan, wall_steps, enemy_steps.
  intros [Hin|Hin]%elem_of_app.
  - apply elem_of_cons in Hin as [[= -> _]|Hin]; [apply list_elem_of_here|].
    apply list_elem_of_fmap in Hin as ([src_file dst_file] & [= _ Hv] & _).
    simpl in Hv. unfold wall_verdict in Hv.
    destruct (fs w !! wall_src_path src_file) as [[|[|s]]|]; try done.
    by destruct (fs w !! wall_dst_path script_dir dst_file) as [[|c]|].
  - apply list_elem_of_bind in Hin as ([[prefix dirname] frames] & Hin & Hcat).
    simpl in Hin. apply elem_of_cons in Hin as [[= -> _]|Hin];
      [by eapply enemy_output_dir|].
    apply list_elem_of_fmap in Hin as (frame & [= _ Hv] & _).
    unfold enemy_verdict in Hv.
    destruct (fs w !! enemy_src_path prefix frame) as [[|[|s]]|]; try done.
    destruct (colorkey (convert_RGBA s)); [|done].
    by destruct (fs w !! enemy_dst_path _ frame) as [[|c]|].
Qed.

(** What a finished run leaves at a destination: what its step in [plan]
    leaves there. *)
Lemma lookup_plan_dest script_dir w q v :
  q ∈ dest_paths script_dir → (q, v) ∈ plan script_dir w →
  foldl write (fs w) (plan script_dir w) !! q = left_by v (fs w !! q).
Proof.
  intros Hq Hstep. apply lookup_foldl_write_in; [apply plan_NoDup|done|].
  intros d Hd%plan_Ensures Hup.
  apply (dest_not_made script_dir q Hq), (made_dirs_above script_dir d);
    [done | by apply list_elem_of_further].
Qed.

Lemma settle_lookup_dest script_dir w q :
  q ∈ dest_paths script_dir → fs (settle script_dir w) !! q = fs w !! q.
Proof.
  intros Hq. unfold settle; simpl. rewrite lookup_mkdirs.
  rewrite decide_False; [done|]. intros Hin.
  apply (dest_not_made script_dir q Hq),
    (made_dirs_above script_dir (walls_dir script_dir));
    [apply list_elem_of_here | done].
Qed.

(** X7. After a run that finishes, every item has been dealt with as its
    source was at the start: the destination of a wall whose source was
    present holds the RGBA conversion of that source; the destination of
    an enemy frame whose source was present holds the colorkey extraction
    of its conversion; the destination of an item whose source was missing
    holds what it held before.  No item's output is overwritten by
    another's. *)
Theorem main_output script_dir w r w' :
  main script_dir w = Done r w' →
  (∀ src_file dst_file, (src_file, dst_file) ∈ WALL_MAP →
     (∀ s, fs w !! wall_src_path src_file = Some (File (Picture s)) →
        fs w' !! wall_dst_path script_dir dst_file
        = Some (File (png_of (convert_RGBA s)))) ∧
     (fs w !! wall_src_path src_file = None →
        fs w' !! wall_dst_path script_dir dst_file
        = fs w !! wall_dst_path script_dir dst_file)) ∧
  (∀ prefix dirname frames frame,
     (prefix, dirname, frames) ∈ ENEMIES → frame ∈ frames →
     let dst_path := enemy_dst_path (enemy_out_dir script_dir dirname) frame in
     (∀ s, fs w !! enemy_src_path prefix frame = Some (File (Picture s)) →
        ∃ img, colorkey (convert_RGBA s) = Ok img ∧
               fs w' !! dst_path = Some (File (png_of img))) ∧
     (fs w !! enemy_src_path prefix frame = None →
        fs w' !! dst_path = fs w !! dst_path)).
Proof.
  intros H. apply main_Done_inv in H as (Hv & Hnone & _ & Hfs & _).
  set (w0 := settle script_dir w) in *.
  pose proof (proj1 (first_failure_None _) Hnone) as Hall.
  rewrite Forall_forall in Hall.
  destruct (settle_keeps script_dir w Hv) as (Hsome & _ & _). fold w0 in Hsome.
  pose proof (settle_lookup script_dir w) as Hrel. fold w0 in Hrel.
  split.
  - intros src_file dst_file Hin.
    pose proof (wall_dest_path script_dir _ _ Hin) as Hq.
    pose proof (wall_step_in_plan script_dir w0 _ _ Hin) as Hstep.
    pose proof (Hall _ Hstep) as Hok; simpl in Hok.
    rewrite Hfs, (lookup_plan_dest _ _ _ _ Hq Hstep).
    pose proof (wall_source_path _ _ Hin) as Hp.
    unfold wall_verdict in *. split.
    + intros s Hs.
      rewrite (Hsome _ _ (source_not_dest script_dir _ Hp) Hs) in *.
      destruct (fs w0 !! wall_dst_path script_dir dst_file) as [[|c]|];
        [by destruct (Hok IsADirectoryError) | done..].
    + intros Hs.
      destruct (fs w0 !! wall_src_path src_file) as [[|[|s]]|] eqn:E.
      * by destruct (Hok IsADirectoryError).
      * by destruct (Hok UnidentifiedImageError).
      * rewrite Hrel in E by (by rewrite E). by rewrite E in Hs.
      * by apply settle_lookup_dest.
  - intros prefix dirname frames frame Hcat Hframe dst_path.
    pose proof (enemy_dest_path script_dir _ _ _ _ Hcat Hframe) as Hq.
    pose proof (enemy_step_in_plan script_dir w0 _ _ _ _ Hcat Hframe)
      as Hstep.
    pose proof (Hall _ Hstep) as Hok; simpl in Hok.
    fold dst_path in Hq, Hstep, Hok.
    rewrite Hfs, (lookup_plan_dest _ _ _ _ Hq Hstep).
    pose proof (enemy_source_path _ _ _ _ Hcat Hframe) as Hp.
    unfold enemy_verdict in *. split.
    + intros s Hs.
      rewrite (Hsome _ _ (source_not_dest script_dir _ Hp) Hs) in *.
      destruct (colorkey (convert_RGBA s)) as [img|e0];
        [|by destruct (Hok e0)].
      exists img. split; [done|].
      destruct (fs w0 !! dst_path) as [[|c]|];
        [by destruct (Hok IsADirectoryError) | done..].
    + intros Hs.
      destruct (fs w0 !! enemy_src_path prefix frame) as [[|[|s]]|] eqn:E.
      * by destruct (Hok IsADirectoryError).
      * by destruct (Hok UnidentifiedImageError).
      * rewrite Hrel in E by (by rewrite E). by rewrite E in Hs.
      * by apply settle_lookup_dest.
Qed.

Lemma main_output_witness :
  (∀ src_file dst_file, (src_file, dst_file) ∈ WALL_MAP →
     (∀ s, fs sample_world !! wall_src_path src_file
           = Some (File (Picture s)) →
        fs (final_world (main "/repo/scripts") sample_world)
          !! wall_dst_path "/repo/scripts" dst_file
        = Some (File (png_of (convert_RGBA s)))) ∧
     (fs sample_world !! wall_src_path src_file = None →
        fs (final_world (main "/repo/scripts") sample_world)
          !! wall_dst_path "/repo/scripts" dst_file
        = fs sample_world !! wall_dst_path "/repo/scripts" dst_file)) ∧
  (∀ prefix dirname frames frame,
     (prefix, dirname, frames) ∈ ENEMIES → frame ∈ frames →
     let dst_path :=
       enemy_dst_path (enemy_out_dir "/repo/scripts" dirname) frame in
     (∀ s, fs sample_world !! enemy_src_path prefix frame
           = Some (File (Picture s)) →
        ∃ img, colorkey (convert_RGBA s) = Ok img ∧
               fs (final_world (main "/repo/scripts") sample_world)
                 !! dst_path = Some (File (png_of img))) ∧
     (fs sample_world !! enemy_src_path prefix frame = None →
        fs (final_world (main "/repo/scripts") sample_world) !! dst_path
        = fs sample_world !! dst_path)).
Proof.
  apply (main_output "/repo/scripts" sample_world (1, 1)).
  apply returned_final. by vm_compute.
Defined.

Lemma plan_keeps script_dir w w' :
  settled script_dir w → keeps script_dir w w' →
  plan script_dir w' = plan script_dir w.
Proof.
  intros Hs Hk. unfold plan.
  by rewrite (walls_plan_keeps script_dir w w'),
    (enemies_plan_keeps script_dir w w').
Qed.

(** X8. Running the converter again is harmless: started in the world a
    finished run left, [main] finishes again, reports the same two
    counters, and leaves the file system exactly as it found it. *)
Theorem main_rerun script_dir w r w1 :
  main script_dir w = Done r w1 →
  ∃ w2, main script_dir w1 = Done r w2 ∧ fs w2 = fs w1.
Proof.
  intros H. apply main_Done_inv in H as (_ & Hnone & -> & Hfs & Hk).
  pose proof (settle_settled script_dir w) as Hs.
  pose proof (keeps_settled script_dir _ _ Hs Hk) as Hs1.
  destruct (main_follows script_dir w1 Hs1) as (w2 & Hfs2 & _ & Hm).
  rewrite (plan_keeps script_dir _ w1 Hs Hk) in Hfs2, Hm.
  rewrite Hnone in Hm. rewrite executed_all in Hfs2 by done.
  rewrite (walls_plan_keeps script_dir _ w1 Hs Hk),
    (enemies_plan_keeps script_dir _ w1 Hs Hk) in Hm.
  exists w2. split; [done|].
  rewrite Hfs2, Hfs. apply foldl_write_twice.
Qed.

Lemma main_rerun_witness :
  ∃ w2, main "/repo/scripts"
          (final_world (main "/repo/scripts") sample_world)
        = Done (1, 1) w2 ∧
        fs w2 = fs (final_world (main "/repo/scripts") sample_world).
Proof.
  apply (main_rerun "/repo/scripts" sample_world).
  apply returned_final. by vm_compute.
Defined.

(** ** Nothing is undone *)

Section steady_facts.

Implicit Types (w : world) (p d : string).



















End steady_facts.



Lemma dest_paths_sublist script_dir :
  dest_paths script_dir `sublist_of` plan_paths script_dir.
Proof.
  unfold dest_paths, plan_paths. apply sublist_cons, sublist_app; [done|].
  induction ENEMIES as [|e enemies IH]; [done|].
  rewrite !bind_cons. apply sublist_app; [|done]. by apply sublist_cons.
Qed.

(** X10. No two items of the batch share a destination, wherever the
    script is installed; no destination is a source path or an output
    directory; and the source paths are pairwise distinct as well. *)
Theorem destinations_distinct script_dir :
  NoDup (dest_paths script_dir) ∧
  NoDup source_paths ∧
  length (dest_paths script_dir) = 69 ∧
  ∀ q, q ∈ dest_paths script_dir →
       (q ∉ source_paths) ∧ (q ∉ output_dirs script_dir).
Proof.
  split; [|split; [|split]].
  - eapply sublist_NoDup; [apply plan_paths_NoDup | apply dest_paths_sublist].
  - apply (bool_decide_unpack _). by vm_compute.
  - done.
  - intros q Hq. split.
    + intros Hs. by apply (source_not_dest script_dir q).
    + by apply dest_not_output_dir.
Qed.

(** ** The per-category notice *)

Lemma enemy_loop_summary script_dir
    (enemies : list (string * string * list string)) enemy_count w n w' :
  enemies ⊆ ENEMIES →
  enemy_loop script_dir enemies enemy_count w = Done n w' →
  ∀ prefix dirname frames, (prefix, dirname, frames) ∈ enemies →
    EPrint ("  OK " +:+ prefix +:+ ": " +:+ str_of_nat (length frames)
            +:+ " frames -> " +:+ dirname +:+ "/") ∈ trace w'.
Proof.
  revert enemy_count w.
  induction enemies as [|[[prefix0 dirname0] frames0] enemies IH];
    intros enemy_count w Hsub H prefix dirname frames Hin.
  - by apply elem_of_nil in Hin.
  - assert (Hrest : enemies ⊆ ENEMIES).
    { intros e He. apply Hsub. by apply list_elem_of_further. }
    unfold enemy_loop in H; simpl in H.
    minv H as count w1 Hbody.
    apply elem_of_cons in Hin as [[= -> -> ->]|Hin]; [|by eapply IH].
    minv Hbody as [] w2 Hmk. minv Hbody as count' w3 Hframes.
    minv Hbody as [] w4 Hpr. apply mret_Done_inv in Hbody as [<- <-].
    injection Hpr as <-.
    apply enemy_loop_run in H as (t & (Htr & _) & _); [|done].
    rewrite Htr. apply elem_of_app. left. simpl.
    apply elem_of_app. right. apply list_elem_of_here.
Qed.

(** X11. The per-category notice reports the frames attempted, not the
    frames converted: in every run that finishes, the line
    "  OK <prefix>: <number of frames> frames -> <dirname>/" is printed
    for each of the four categories, whatever was converted or skipped. *)
Theorem category_summary_printed script_dir w r w' prefix dirname frames :
  main script_dir w = Done r w' →
  (prefix, dirname, frames) ∈ ENEMIES →
  EPrint ("  OK " +:+ prefix +:+ ": " +:+ str_of_nat (length frames)
          +:+ " frames -> " +:+ dirname +:+ "/") ∈ trace w'.
Proof.
  unfold main, convert_enemies. intros H Hin.
  minv H as [] w1 Hpr1. minv H as wc w2 Hwalls. minv H as ec w3 Henemies.
  minv H as [] w4 Hpr2. apply mret_Done_inv in H as [_ <-].
  injection Hpr2 as <-.
  minv Henemies as [] w5 Hpr3. minv Henemies as count w6 Hloop.
  minv Henemies as [] w7 Hpr4. apply mret_Done_inv in Henemies as [_ <-].
  injection Hpr4 as <-.
  pose proof (enemy_loop_summary _ _ _ _ _ _ (λ x Hx, Hx) Hloop _ _ _ Hin)
    as Hline.
  simpl. apply elem_of_app. left. apply elem_of_app. by left.
Qed.

Lemma category_summary_printed_witness :
  EPrint ("  OK " +:+ "GARD" +:+ ": "
          +:+ str_of_nat (length (list_of_str "ABCDEFGHIJKLMN"))
          +:+ " frames -> " +:+ "guard" +:+ "/")
  ∈ trace (final_world (main "/repo/scripts") empty_world).
Proof.
  apply (category_summary_printed "/repo/scripts" empty_world (0, 0)).
  - apply returned_final. by vm_compute.
  - apply list_elem_of_here.
Defined.
